(** * Rate limiter: token bucket, sliding window and their factory

    A shallow embedding of [low-level-design/Rate Limiter/rate-limiter.py].

    Conventions of the embedding.
    - Time stamps ([time.time()]) are integers counted in the clock's
      unit (seconds in the examples of the source). The source holds
      them as binary64 values; on integers of magnitude at most [2^52]
      its subtractions and floor divisions are exact and agree with the
      integer arithmetic used here, while fractional or larger stamps
      are rounded by the source. A statement that depends on an exact
      threshold therefore assumes [exact_clock]; one that holds however
      the elapsed time is rounded does not.
    - The wall clock is an explicit component of the world: an infinite
      tape of readings and a cursor; every [time.time()] consumes one
      reading.
    - [with self.lock] makes every [is_allowed] call atomic; a call is
      one run of the monadic body against the world.
    - Python exceptions are the left summand of the result. *)

From Stdlib Require Import ZArith Lia List Sorted.
From stdpp Require Import gmap strings list fin_maps pretty.

Local Open Scope string_scope.
Local Open Scope Z_scope.

(** ** Exceptions, and the state-and-exception monad *)

Inductive Exn : Type :=
  | ZeroDivisionError
  | KeyError
  | TypeError
  | ValueError (msg : string).

Definition M (S A : Type) : Type := S -> (Exn + A) * S.

Definition ret {S A : Type} (a : A) : M S A := fun s => (inr a, s).

Definition raise {S A : Type} (e : Exn) : M S A := fun s => (inl e, s).

Definition bind {S A B : Type} (m : M S A) (k : A -> M S B) : M S B :=
  fun s =>
    match m s with
    | (inl e, s') => (inl e, s')
    | (inr a, s') => k a s'
    end.

Definition get {S : Type} : M S S := fun s => (inr s, s).

Notation "'do' x <- m ; k" := (bind m (fun x => k))
  (at level 10, x name, m at level 100, k at level 200).
Notation "'do_' m ; k" := (bind m (fun _ => k))
  (at level 10, m at level 100, k at level 200).

(** ** The clock *)

Record Clock : Type := { reading : nat -> Z; ticks : nat }.

(** The reading the next [time.time()] returns. *)
Definition peek (c : Clock) : Z := reading c (ticks c).

Definition tick (c : Clock) : Clock :=
  {| reading := reading c; ticks := S (ticks c) |}.

(** The reading the latest [time.time()] returned. *)
Definition last_reading (c : Clock) : Z := reading c (pred (ticks c)).

(** A clock that never runs backwards. *)
Definition non_decreasing (c : Clock) : Prop :=
  forall i j : nat, (i <= j)%nat -> reading c i <= reading c j.

(** A clock from a finite script of readings; after the script it keeps
    returning the given final value. *)
Definition scripted (l : list Z) (final : Z) : Clock :=
  {| reading := fun i => nth i l final; ticks := 0 |}.

(** The world a limiter of type [L] runs in: the object and the clock. *)
Record World (L : Type) : Type := { self : L; clock : Clock }.
Arguments self {L} _.
Arguments clock {L} _.

Definition time_time {L : Type} : M (World L) Z :=
  fun w => (inr (peek (clock w)), {| self := self w; clock := tick (clock w) |}).

Definition get_self {L : Type} : M (World L) L :=
  fun w => (inr (self w), w).

Definition modify_self {L : Type} (f : L -> L) : M (World L) unit :=
  fun w => (inr tt, {| self := f (self w); clock := clock w |}).

(** Python's [a // b] on integers: floor division, raising on a zero
    divisor. *)
Definition floordiv {S : Type} (a b : Z) : M S Z :=
  if decide (b = 0) then raise ZeroDivisionError else ret (a / b).

(** One entry of the log an observer of the calls keeps: who called, the
    instant [now] the call sampled, and the decision. *)
Record Call : Type := { call_user : string; call_time : Z; call_admitted : bool }.

Definition entry_of (u : string) (t : Z) (ok : bool) : Call :=
  {| call_user := u; call_time := t; call_admitted := ok |}.

(** Admitted calls of [key] whose instant lies in the closed window
    [[lo, hi]]. *)
Definition admitted_in (key : string) (lo hi : Z) (c : Call) : bool :=
  bool_decide (call_user c = key) && call_admitted c
  && (lo <=? call_time c) && (call_time c <=? hi).

Definition admits (key : string) (lo hi : Z) (log : list Call) : Z :=
  Z.of_nat (length (List.filter (admitted_in key lo hi) log)).

Definition charge (ok : bool) : Z := if ok then 1 else 0.

(** Stored time stamps inside the closed window [[lo, hi]]. *)
Definition stamps_in (lo hi : Z) (l : list Z) : Z :=
  Z.of_nat (length (List.filter (fun ts => (lo <=? ts) && (ts <=? hi)) l)).

(** ** TokenBucketRateLimiter *)

Module TokenBucketRateLimiter.

Record Bucket : Type := { tokens : Z; last_refill : Z }.

Record t : Type :=
  { capacity : Z; refill_interval : Z; buckets : gmap string Bucket }.

(** [__init__(self, capacity=3, refill_interval=20.0)] *)
Definition init (capacity refill_interval : Z) : t :=
  {| capacity := capacity; refill_interval := refill_interval; buckets := ∅ |}.

(** [self.buckets[user_id] = b] *)
Definition set_bucket (user_id : string) (b : Bucket) : M (World t) unit :=
  modify_self (fun l =>
    {| capacity := capacity l; refill_interval := refill_interval l;
       buckets := <[user_id := b]> (buckets l) |}).

(** [self.buckets[user_id]] *)
Definition get_bucket (user_id : string) : M (World t) Bucket :=
  do l <- get_self;
  match buckets l !! user_id with
  | Some b => ret b
  | None => raise KeyError
  end.

(** [self.buckets[user_id]["tokens"] = n] *)
Definition set_tokens (user_id : string) (n : Z) : M (World t) unit :=
  do b <- get_bucket user_id;
  set_bucket user_id {| tokens := n; last_refill := last_refill b |}.

(** [self.buckets[user_id]["last_refill"] = ts] *)
Definition set_last_refill (user_id : string) (ts : Z) : M (World t) unit :=
  do b <- get_bucket user_id;
  set_bucket user_id {| tokens := tokens b; last_refill := ts |}.

Definition is_allowed (user_id : string) : M (World t) bool :=
  do l <- get_self;
  do_ (if decide (buckets l !! user_id = None) then
         do t0 <- time_time;
         set_bucket user_id {| tokens := capacity l; last_refill := t0 |}
       else ret tt);
  do bucket <- get_bucket user_id;
  do now <- time_time;
  let elapsed := now - last_refill bucket in
  do tokens_to_add <- floordiv elapsed (refill_interval l);
  do_ (if 0 <? tokens_to_add then
         let new_tokens := Z.min (capacity l) (tokens bucket + tokens_to_add) in
         do_ set_tokens user_id new_tokens;
         set_last_refill user_id now
       else ret tt);
  do b <- get_bucket user_id;
  if 0 <? tokens b then
    do_ set_tokens user_id (tokens b - 1);
    ret true
  else ret false.

(** A call as an observer logs it. *)
Definition observed (user_id : string) : M (World t) Call :=
  do ok <- is_allowed user_id;
  do w <- get;
  ret {| call_user := user_id;
         call_time := last_reading (clock w);
         call_admitted := ok |}.

(** A sequence of calls; an exception ends it. *)
Fixpoint calls (users : list string) : M (World t) (list Call) :=
  match users with
  | [] => ret []
  | u :: rest =>
      do c <- observed u;
      do cs <- calls rest;
      ret (c :: cs)
  end.

End TokenBucketRateLimiter.

(** ** SlidingWindowRateLimiter *)

Module SlidingWindowRateLimiter.

Record t : Type :=
  { max_requests : Z; window : Z; requests : gmap string (list Z) }.

(** [__init__(self, max_requests=3, window=60.0)] *)
Definition init (max_requests window : Z) : t :=
  {| max_requests := max_requests; window := window; requests := ∅ |}.

(** [self.requests[user_id] = l] *)
Definition set_requests (user_id : string) (l : list Z) : M (World t) unit :=
  modify_self (fun s =>
    {| max_requests := max_requests s; window := window s;
       requests := <[user_id := l]> (requests s) |}).

(** [self.requests[user_id]] *)
Definition get_requests (user_id : string) : M (World t) (list Z) :=
  do s <- get_self;
  match requests s !! user_id with
  | Some l => ret l
  | None => raise KeyError
  end.

Definition is_allowed (user_id : string) : M (World t) bool :=
  do now <- time_time;
  do s <- get_self;
  do_ (if decide (requests s !! user_id = None) then set_requests user_id []
       else ret tt);
  do old <- get_requests user_id;
  do_ set_requests user_id (List.filter (fun ts => now - ts <? window s) old);
  do kept <- get_requests user_id;
  if Z.of_nat (length kept) <? max_requests s then
    do_ set_requests user_id (kept ++ [now])%list;
    ret true
  else ret false.

(** A call as an observer logs it. *)
Definition observed (user_id : string) : M (World t) Call :=
  do ok <- is_allowed user_id;
  do w <- get;
  ret {| call_user := user_id;
         call_time := last_reading (clock w);
         call_admitted := ok |}.

(** A sequence of calls; an exception ends it. *)
Fixpoint calls (users : list string) : M (World t) (list Call) :=
  match users with
  | [] => ret []
  | u :: rest =>
      do c <- observed u;
      do cs <- calls rest;
      ret (c :: cs)
  end.

End SlidingWindowRateLimiter.

(** ** RateLimiterFactory *)

Module RateLimiterFactory.

(** The two concrete subclasses of [RateLimiter]. *)
Inductive RateLimiter : Type :=
  | TokenBucket (l : TokenBucketRateLimiter.t)
  | SlidingWindow (l : SlidingWindowRateLimiter.t).

(** Calling a class with a keyword dictionary, for a constructor with
    the two keyword parameters [p1=d1, p2=d2]: any other keyword is a
    [TypeError], a missing one takes its default, and the values are
    stored as given. *)
Definition construct {L : Type} (mk : Z -> Z -> L)
    (p1 : string) (d1 : Z) (p2 : string) (d2 : Z)
    (kwargs : gmap string Z) : Exn + L :=
  if decide (dom kwargs ⊆ ({[ p1; p2 ]} : gset string)) then
    inr (mk (default d1 (kwargs !! p1)) (default d2 (kwargs !! p2)))
  else inl TypeError.

Definition create (limiter_type : string) (kwargs : gmap string Z)
    : Exn + RateLimiter :=
  if decide (limiter_type = "token_bucket") then
    match construct TokenBucketRateLimiter.init "capacity" 3 "refill_interval" 20 kwargs with
    | inr l => inr (TokenBucket l)
    | inl e => inl e
    end
  else if decide (limiter_type = "sliding_window") then
    match construct SlidingWindowRateLimiter.init "max_requests" 3 "window" 60 kwargs with
    | inr l => inr (SlidingWindow l)
    | inl e => inl e
    end
  else inl (ValueError "Unknown rate limiter algorithm.").

End RateLimiterFactory.

(** ** One call, summarised

    The effect of one [is_allowed] call on the bucket of its key, as
    pure functions; [TokenBucket_is_allowed_eq] and
    [SlidingWindow_is_allowed_eq] below prove that the monadic bodies
    compute exactly this. *)

Module TokenBucketStep.

Import TokenBucketRateLimiter.

(** Lines 28-33: the refill. *)
Definition refill (C R : Z) (b : Bucket) (now : Z) : Bucket :=
  if 0 <? (now - last_refill b) / R then
    {| tokens := Z.min C (tokens b + (now - last_refill b) / R);
       last_refill := now |}
  else b.

(** Lines 35-38: the decision and the charge. *)
Definition consume (b : Bucket) : Bucket * bool :=
  if 0 <? tokens b then
    ({| tokens := tokens b - 1; last_refill := last_refill b |}, true)
  else (b, false).

Definition step (C R : Z) (b : Bucket) (now : Z) : Bucket * bool :=
  consume (refill C R b now).

(** The bucket the call works on: the stored one, or the one lines
    20-24 create. *)
Definition entry (w : World t) (u : string) : Bucket :=
  default {| tokens := capacity (self w); last_refill := peek (clock w) |}
          (buckets (self w) !! u).

(** The clock after the call: one reading consumed, two for a new key. *)
Definition clock_after (w : World t) (u : string) : Clock :=
  match buckets (self w) !! u with
  | Some _ => tick (clock w)
  | None => tick (tick (clock w))
  end.

Definition after (w : World t) (u : string) : World t :=
  let now := last_reading (clock_after w u) in
  let l := self w in
  {| self :=
       {| capacity := capacity l;
          refill_interval := refill_interval l;
          buckets :=
            <[u := fst (step (capacity l) (refill_interval l) (entry w u) now)]>
              (buckets l) |};
     clock := clock_after w u |}.

Definition decision (w : World t) (u : string) : bool :=
  snd (step (capacity (self w)) (refill_interval (self w)) (entry w u)
            (last_reading (clock_after w u))).

(** The log entry of the call. *)
Definition logged (w : World t) (u : string) : Call :=
  {| call_user := u;
     call_time := last_reading (clock_after w u);
     call_admitted := decision w u |}.

Fixpoint trace (users : list string) (w : World t) : list Call :=
  match users with
  | [] => []
  | u :: rest => logged w u :: trace rest (after w u)
  end.

Fixpoint final (users : list string) (w : World t) : World t :=
  match users with
  | [] => w
  | u :: rest => final rest (after w u)
  end.

End TokenBucketStep.

Module SlidingWindowStep.

Import SlidingWindowRateLimiter.

(** Line 55: the pruning. *)
Definition prune (W now : Z) (l : list Z) : list Z :=
  List.filter (fun ts => now - ts <? W) l.

(** Lines 55-60. *)
Definition step (N W : Z) (l : list Z) (now : Z) : list Z * bool :=
  let kept := prune W now l in
  if Z.of_nat (length kept) <? N then ((kept ++ [now])%list, true) else (kept, false).

Definition entry (w : World t) (u : string) : list Z :=
  default [] (requests (self w) !! u).

Definition after (w : World t) (u : string) : World t :=
  let s := self w in
  {| self :=
       {| max_requests := max_requests s;
          window := window s;
          requests :=
            <[u := fst (step (max_requests s) (window s) (entry w u)
                             (peek (clock w)))]> (requests s) |};
     clock := tick (clock w) |}.

Definition decision (w : World t) (u : string) : bool :=
  snd (step (max_requests (self w)) (window (self w)) (entry w u)
            (peek (clock w))).

Definition logged (w : World t) (u : string) : Call :=
  {| call_user := u;
     call_time := peek (clock w);
     call_admitted := decision w u |}.

Fixpoint trace (users : list string) (w : World t) : list Call :=
  match users with
  | [] => []
  | u :: rest => logged w u :: trace rest (after w u)
  end.

Fixpoint final (users : list string) (w : World t) : World t :=
  match users with
  | [] => w
  | u :: rest => final rest (after w u)
  end.

End SlidingWindowStep.


(** ** Statements about calls and runs *)

Definition boot {L : Type} (l : L) (ck : Clock) : World L :=
  {| self := l; clock := ck |}.

(** Up to this magnitude every integer is a binary64 value, and the
    difference of two such integers and its floor quotient by a third
    are computed without rounding. *)
Definition exact_limit : Z := 2 ^ 52.

Definition exact (z : Z) : Prop := - exact_limit <= z <= exact_limit.

(** A clock all of whose readings are integers of the exact range. *)
Definition exact_clock (c : Clock) : Prop :=
  forall i : nat, exact (reading c i).

Definition exactb (z : Z) : bool := (- exact_limit <=? z) && (z <=? exact_limit).

Definition within_exact (l : list Z) (final : Z) : bool :=
  forallb exactb (final :: l).

(** A script of readings that never decreases, its final value included. *)
Fixpoint ascending (l : list Z) (final : Z) : bool :=
  match l with
  | [] => true
  | x :: rest => (x <=? hd final rest) && ascending rest final
  end.

Module TokenBucketClaims.

Import TokenBucketRateLimiter TokenBucketStep.

(** The instant [now] the call of [u] samples (line 27). *)
Definition call_now (w : World t) (u : string) : Z :=
  last_reading (clock_after w u).

(** [tokens_to_add] as line 29 computes it. *)
Definition tokens_to_add (w : World t) (u : string) : Z :=
  (call_now w u - last_refill (entry w u)) / refill_interval (self w).

(** A run of [users] on a fresh limiter returns, and in every trailing
    window [[t - C * R, t]] at most [limit] calls of [key] are admitted. *)
Definition admits_bounded_by (limit C R : Z) (ck : Clock)
    (users : list string) (key : string) : Prop :=
  exists (log : list Call) (w' : World t),
    calls users (boot (init C R) ck) = (inr log, w')
    /\ forall t : Z, admits key (t - C * R) t log <= limit.

(** The call of [u] returns, leaves in the bucket the refilled count
    [min(capacity, tokens + tokens_to_add)] less the charge of the
    decision, and leaves [last_refill] at [stamp]. *)
Definition refilled_to (w : World t) (u : string) (stamp : Z) : Prop :=
  exists (ok : bool) (w' : World t) (b' : Bucket),
    is_allowed u w = (inr ok, w')
    /\ buckets (self w') !! u = Some b'
    /\ ok = (0 <? Z.min (capacity (self w)) (tokens (entry w u) + tokens_to_add w u))
    /\ tokens b'
       = Z.min (capacity (self w)) (tokens (entry w u) + tokens_to_add w u) - charge ok
    /\ last_refill b' = stamp.

(** Every stored bucket holds between [0] and [capacity] tokens. *)
Definition tokens_in_range (l : t) : Prop :=
  forall (k : string) (b : Bucket),
    buckets l !! k = Some b -> 0 <= tokens b <= capacity l.

(** No stored [last_refill] moves backwards from [l] to [l']. *)
Definition last_refill_advances (l l' : t) : Prop :=
  forall (k : string) (b : Bucket),
    buckets l !! k = Some b ->
    exists b' : Bucket, buckets l' !! k = Some b' /\ last_refill b <= last_refill b'.

(** Three admits at [0], one more at [20]. *)
Definition burst_then_refill : Clock := scripted [0; 0; 0; 0; 20] 20.

(** Three admits at [0], then one at each of [20], [40] and [60]. *)
Definition burst_then_trickle : Clock := scripted [0; 0; 0; 0; 20; 40; 60] 60.

(** A drained bucket last refilled at [0], called again at [30]: one
    token is due and 10 units of time are left over. *)
Definition drained_at_30 : World t :=
  boot {| capacity := 3; refill_interval := 20;
          buckets := {[ "user_1" := {| tokens := 0; last_refill := 0 |} ]} |}
       (scripted [30] 30).





(** Three calls at [0] (the first reads the clock twice), then calls at
    [19], [20] and [20]. *)
Definition exhaust_and_wait : Clock := scripted [0; 0; 0; 0; 19; 20; 20] 20.

(** A drained bucket last refilled at [0], called again at [10], before
    a token is due. *)
Definition drained_at_10 : World t :=
  boot {| capacity := 3; refill_interval := 20;
          buckets := {[ "user_1" := {| tokens := 0; last_refill := 0 |} ]} |}
       (scripted [10] 10).

(** The world [drained_at_30] with two more keys in the limiter. *)
Definition drained_at_30_crowded : World t :=
  boot {| capacity := 3; refill_interval := 20;
          buckets :=
            <["user_2" := {| tokens := 3; last_refill := 7 |}]>
              (<["user_3" := {| tokens := 1; last_refill := 25 |}]>
                 {[ "user_1" := {| tokens := 0; last_refill := 0 |} ]}) |}
       (scripted [30] 30).

(** A drained bucket last refilled at [0], called again from [60] on. *)
Definition idle_for_60 : World t :=
  boot {| capacity := 3; refill_interval := 20;
          buckets := {[ "user_1" := {| tokens := 0; last_refill := 0 |} ]} |}
       (scripted [60; 60; 60; 61; 62] 62).


End TokenBucketClaims.

Module SlidingWindowClaims.

Import SlidingWindowRateLimiter SlidingWindowStep.

(** A run of [users] on a fresh limiter returns, and in every window
    [(t - W, t]] (over integer instants: [[t - W + 1, t]]) at most [N]
    calls of [key] are admitted. *)
Definition admits_within_window (N W : Z) (ck : Clock)
    (users : list string) (key : string) : Prop :=
  exists (log : list Call) (w' : World t),
    calls users (boot (init N W) ck) = (inr log, w')
    /\ forall t : Z, admits key (t - W + 1) t log <= N.

(** The same with the window closed at both ends, [[t - W, t]]. *)
Definition admits_within_closed_window (N W : Z) (ck : Clock)
    (users : list string) (key : string) : Prop :=
  exists (log : list Call) (w' : World t),
    calls users (boot (init N W) ck) = (inr log, w')
    /\ forall t : Z, admits key (t - W) t log <= N.

(** Five calls at [0], a sixth at [30], a seventh at [61]. *)
Definition five_then_two : Clock := scripted [0; 0; 0; 0; 0; 30; 61] 61.

(** A call at [0] and a call exactly one window later. *)
Definition one_window_apart : Clock := scripted [0; 60] 60.

End SlidingWindowClaims.

Module FactoryClaims.

Import RateLimiterFactory.

(** [create] raises: no limiter is returned. *)
Definition construction_fails (limiter_type : string) (kwargs : gmap string Z)
    : Prop :=
  exists e : Exn, create limiter_type kwargs = inl e.

(** The keyword dictionary [p1=v1, p2=v2]. *)
Definition keywords (p1 : string) (v1 : Z) (p2 : string) (v2 : Z)
    : gmap string Z :=
  <[p1 := v1]> (<[p2 := v2]> ∅).

End FactoryClaims.

(** ** The example program at the end of the file *)

Module Main.

Import RateLimiterFactory.

(** [limiter.is_allowed(user)] on whichever subclass the factory
    returned. *)
Definition is_allowed (user_id : string) : M (World RateLimiter) bool :=
  fun w =>
    match self w with
    | TokenBucket l =>
        let (r, w') := TokenBucketRateLimiter.is_allowed user_id (boot l (clock w)) in
        (r, boot (TokenBucket (self w')) (clock w'))
    | SlidingWindow l =>
        let (r, w') := SlidingWindowRateLimiter.is_allowed user_id (boot l (clock w)) in
        (r, boot (SlidingWindow (self w')) (clock w'))
    end.

(** The running program: the limiter it holds and the lines it has
    printed. *)
Record Program : Type := { limiter : RateLimiter; stdout : list string }.

Definition print (line : string) : M (World Program) unit :=
  modify_self (fun p => {| limiter := limiter p; stdout := (stdout p ++ [line])%list |}).

(** [time.sleep(seconds)] lets time pass and does nothing else; how much
    time passes between two readings is already up to the clock. *)
Definition time_sleep (seconds : Z) : M (World Program) unit := ret tt.

Definition call_limiter (user_id : string) : M (World Program) bool :=
  fun w =>
    let (r, w') := is_allowed user_id (boot (limiter (self w)) (clock w)) in
    (r, boot {| limiter := self w'; stdout := stdout (self w) |} (clock w')).

(** [str(allowed)] *)
Definition str_bool (b : bool) : string := if b then "True" else "False".

(** The f-string of line 81. *)
Definition request_line (i : nat) (user : string) (allowed : bool) : string :=
  "Request " +:+ pretty (i + 1)%nat +:+ " for " +:+ user
  +:+ " - allowed: " +:+ str_bool allowed.

(** [for i in indices: body(i)] *)
Fixpoint for_each {S : Type} (indices : list nat) (body : nat -> M S unit)
    : M S unit :=
  match indices with
  | [] => ret tt
  | i :: rest => do_ body i; for_each rest body
  end.

(** Lines 80-85, one turn of the loop. *)
Definition turn (user : string) (i : nat) : M (World Program) unit :=
  do allowed <- call_limiter user;
  do_ print (request_line i user allowed);
  do_ (if negb allowed then print "Rate limit exceeded." else ret tt);
  time_sleep 5.

(** Lines 76-85: the exception or [None] the block ends with, and what
    it printed. *)
Definition main (ck : Clock) : (Exn + unit) * list string :=
  match create "sliding_window" (FactoryClaims.keywords "max_requests" 5 "window" 60) with
  | inl e => (inl e, [])
  | inr l =>
      let user := "user_1" in
      let (r, w) := for_each (seq 0 5) (turn user) (boot {| limiter := l; stdout := [] |} ck) in
      (r, stdout (self w))
  end.

End Main.

(** ** Further statements about runs *)

(** How often [u] calls in [users]. *)
Definition occurrences (u : string) (users : list string) : Z :=
  Z.of_nat (length (List.filter (fun x => bool_decide (x = u)) users)).

(** Every logged call of [key] was decided [ok]. *)
Definition decided (key : string) (ok : bool) (log : list Call) : Prop :=
  Forall (fun c => call_user c = key -> call_admitted c = ok) log.

(** Every logged call, of whatever key, was decided [ok]. *)
Definition all_decided (ok : bool) (log : list Call) : Prop :=
  Forall (fun c => call_admitted c = ok) log.

(** The keys of a run, as a set. *)
Definition callers (users : list string) : gset string := list_to_set users.

(** A stored list of stamps is well formed up to the instant [bound]:
    no longer than [N], in non-decreasing order, and nothing later than
    [bound]. *)
Definition stamps_ok (N bound : Z) (l : list Z) : Prop :=
  Z.of_nat (length l) <= N
  /\ StronglySorted Z.le l
  /\ Forall (fun ts => ts <= bound) l.

Definition requests_ok (w : World SlidingWindowRateLimiter.t) : Prop :=
  forall (k : string) (l : list Z),
    SlidingWindowRateLimiter.requests (self w) !! k = Some l ->
    stamps_ok (SlidingWindowRateLimiter.max_requests (self w))
              (last_reading (clock w)) l.

(** A new key whose first call reads the clock at [-1] and then at [0],
    and which calls again at [19]. *)
Definition straddling : Clock := scripted [-1; 0; 19] 19.

(** * Properties *)

(** ** The token bucket: one call *)

Section TokenBucketCall.

Import TokenBucketRateLimiter TokenBucketStep.

Lemma TokenBucket_is_allowed_eq (w : World t) (u : string) :
refill_interval (self w) <> 0 ->
is_allowed u w = (inr (decision w u), after w u).
Proof.
intros HR. destruct w as [[C R bs] ck]. simpl in HR.
unfold is_allowed, decision, after, entry, clock_after, step, refill, consume.
unfold bind, get_self, time_time, set_tokens, set_last_refill, get_bucket,
  set_bucket, modify_self, floordiv, ret, raise, bind, get_self,
  last_reading, peek.
simpl.
destruct (bs !! u) as [b|] eqn:Hb; simpl;
  repeat (progress (rewrite ?Hb, ?lookup_insert_eq; simpl));
  (destruct (decide (R = 0)); [done|]); simpl;
  destruct (0 <? (_ - _) / R) eqn:Hadd; simpl;
  repeat (progress (rewrite ?Hb, ?lookup_insert_eq; simpl));
  match goal with
  | |- context [0 <? ?x] => destruct (0 <? x) eqn:Htok
  end; simpl;
  repeat (progress (rewrite ?Hb, ?lookup_insert_eq, ?insert_insert_eq; simpl));
  try done.
by rewrite insert_id.
Qed.

Lemma TokenBucket_observed_eq (w : World t) (u : string) :
  refill_interval (self w) <> 0 ->
  observed u w = (inr (logged w u), after w u).
Proof.
  intros HR. unfold observed, bind. by rewrite TokenBucket_is_allowed_eq.
Qed.

Lemma after_capacity w u : capacity (self (after w u)) = capacity (self w).
Proof. done. Qed.

Lemma after_refill_interval w u :
  refill_interval (self (after w u)) = refill_interval (self w).
Proof. done. Qed.

Lemma after_reading w u : reading (clock (after w u)) = reading (clock w).
Proof. unfold after, clock_after. simpl. by destruct (_ !! u). Qed.

Lemma after_lookup_ne w u k :
  u <> k -> buckets (self (after w u)) !! k = buckets (self w) !! k.
Proof. intros Hne. unfold after. simpl. by rewrite lookup_insert_ne. Qed.

Lemma after_lookup_eq w u :
  buckets (self (after w u)) !! u =
  Some (fst (step (capacity (self w)) (refill_interval (self w))
                  (entry w u) (last_reading (clock_after w u)))).
Proof. unfold after. simpl. by rewrite lookup_insert_eq. Qed.

Lemma TokenBucket_calls_eq (users : list string) :
  forall w : World t,
    refill_interval (self w) <> 0 ->
    calls users w = (inr (trace users w), final users w).
Proof.
  induction users as [|u rest IH]; intros w HR; [done|].
  cbn [calls trace final]. unfold bind at 1.
  rewrite TokenBucket_observed_eq by done.
  unfold bind at 1. by rewrite IH.
Qed.

(** The instant of a call lies between the reading pending before it
    and the reading pending after it. *)
Lemma call_time_bounds w u :
  non_decreasing (clock w) ->
  peek (clock w) <= last_reading (clock_after w u)
  /\ last_reading (clock_after w u) <= peek (clock (after w u)).
Proof.
  intros Hmono. unfold after, clock_after, peek, last_reading. simpl.
  destruct (_ !! u); simpl; split; apply Hmono; lia.
Qed.

Lemma after_non_decreasing w u :
  non_decreasing (clock w) -> non_decreasing (clock (after w u)).
Proof. unfold non_decreasing. by rewrite after_reading. Qed.

(** With a zero interval the floor division of line 29 raises, after
    the bucket of a new key has been stored. *)
Lemma TokenBucket_is_allowed_zero (w : World t) (u : string) :
  refill_interval (self w) = 0 ->
  is_allowed u w
  = (inl ZeroDivisionError,
     {| self := {| capacity := capacity (self w);
                   refill_interval := refill_interval (self w);
                   buckets := <[u := entry w u]> (buckets (self w)) |};
        clock := clock_after w u |}).
Proof.
  intros HR. destruct w as [[C R bs] ck]. simpl in HR. subst R.
  unfold is_allowed, entry, clock_after.
  unfold bind, get_self, time_time, set_tokens, set_last_refill, get_bucket,
    set_bucket, modify_self, floordiv, ret, raise, bind, get_self.
  simpl.
  destruct (bs !! u) as [b|] eqn:Hb; simpl;
    repeat (progress (rewrite ?Hb, ?lookup_insert_eq; simpl)); [|done].
  by rewrite insert_id.
Qed.

(** The head of a run, for a key whose bucket is stored and for a new
    key, with the outcome of the step named. *)
Lemma trace_stored (C R : Z) (bs : gmap string Bucket) (ck : Clock)
    (u : string) (rest : list string) (b b' : Bucket) (ok : bool) :
  step C R b (peek ck) = (b', ok) ->
  trace (u :: rest)
    (boot {| capacity := C; refill_interval := R; buckets := <[u := b]> bs |} ck)
  = entry_of u (peek ck) ok
    :: trace rest
         (boot {| capacity := C; refill_interval := R; buckets := <[u := b']> bs |}
               (tick ck)).
Proof.
  intros Hstep. cbn [trace]. unfold logged, decision, after, entry, clock_after, boot.
  cbn [self clock buckets capacity refill_interval].
  rewrite lookup_insert_eq. cbn [default from_option id].
  change (last_reading (tick ck)) with (peek ck).
  by rewrite Hstep, insert_insert_eq.
Qed.

Lemma trace_new (C R : Z) (bs : gmap string Bucket) (ck : Clock)
    (u : string) (rest : list string) (b' : Bucket) (ok : bool) :
  bs !! u = None ->
  step C R {| tokens := C; last_refill := peek ck |} (peek (tick ck)) = (b', ok) ->
  trace (u :: rest)
    (boot {| capacity := C; refill_interval := R; buckets := bs |} ck)
  = entry_of u (peek (tick ck)) ok
    :: trace rest
         (boot {| capacity := C; refill_interval := R; buckets := <[u := b']> bs |}
               (tick (tick ck))).
Proof.
  intros Hnew Hstep. cbn [trace].
  unfold logged, decision, after, entry, clock_after, boot.
  cbn [self clock buckets capacity refill_interval].
  rewrite Hnew. cbn [default from_option id].
  change (last_reading (tick (tick ck))) with (peek (tick ck)).
  by rewrite Hstep.
Qed.

End TokenBucketCall.

(** ** The token bucket: arithmetic of one step *)

Section TokenBucketArith.

Import TokenBucketRateLimiter TokenBucketStep.

Variables C R : Z.
Hypothesis R_pos : 0 < R.

Lemma floor_superadditive (a b : Z) : a / R + b / R <= (a + b) / R.
Proof.
  apply Z.div_le_lower_bound; [done|].
  pose proof (Z.mul_div_le a R R_pos). pose proof (Z.mul_div_le b R R_pos). lia.
Qed.

Lemma refill_tokens_le (b : Bucket) (now : Z) :
  tokens b <= C -> tokens (refill C R b now) <= C.
Proof. unfold refill. destruct (0 <? _); simpl; lia. Qed.

Lemma refill_tokens_ge (b : Bucket) (now : Z) :
  0 <= C -> 0 <= tokens b -> 0 <= tokens (refill C R b now).
Proof.
  unfold refill. destruct (0 <? _) eqn:E; simpl; [|lia].
  apply Z.ltb_lt in E. lia.
Qed.

Lemma refill_last_refill (b : Bucket) (now : Z) :
  last_refill (refill C R b now) = last_refill b
  \/ (last_refill (refill C R b now) = now /\ last_refill b + R <= now).
Proof.
  unfold refill. destruct (0 <? _) eqn:E; simpl; [right|by left].
  apply Z.ltb_lt in E. split; [done|].
  destruct (Z.lt_ge_cases (now - last_refill b) R) as [Hlt|Hge]; [|lia].
  assert ((now - last_refill b) / R <= 0); [|lia].
  destruct (Z.lt_ge_cases (now - last_refill b) 0).
  - apply Z.lt_succ_r. apply Z.div_lt_upper_bound; lia.
  - rewrite Z.div_small; lia.
Qed.

Lemma consume_charge (b : Bucket) :
  charge (snd (consume b)) + Z.max 0 (tokens (fst (consume b)))
  = Z.max 0 (tokens b).
Proof.
  unfold consume. destruct (0 <? tokens b) eqn:E; simpl.
  - apply Z.ltb_lt in E. lia.
  - lia.
Qed.

Lemma consume_last_refill (b : Bucket) :
  last_refill (fst (consume b)) = last_refill b.
Proof. unfold consume. by destruct (0 <? _). Qed.

(** A call inside the horizon [hi] pays for its admit out of the
    potential [tokens + floor((hi - last_refill) / R)]. *)
Lemma step_potential (b : Bucket) (now hi : Z) :
  last_refill b <= now -> now <= hi ->
  charge (snd (step C R b now))
  + Z.max 0 (tokens (fst (step C R b now)))
  + (hi - last_refill (fst (step C R b now))) / R
  <= Z.max 0 (tokens b) + (hi - last_refill b) / R.
Proof.
  intros Hlr Hhi. unfold step. rewrite consume_charge, consume_last_refill.
  unfold refill. destruct (0 <? _) eqn:E; simpl; [|lia].
  apply Z.ltb_lt in E.
  pose proof (floor_superadditive (now - last_refill b) (hi - now)) as Hs.
  replace (now - last_refill b + (hi - now)) with (hi - last_refill b) in Hs by lia.
  lia.
Qed.

(** The first call inside a window [[lo, hi]] no longer than [C * R]
    leaves a potential of at most [2 * C], its own admit included. *)
Lemma step_window (b : Bucket) (now lo hi : Z) :
  0 <= C -> tokens b <= C ->
  last_refill b <= now -> lo <= now -> hi - lo <= C * R ->
  charge (snd (step C R b now))
  + Z.max 0 (tokens (fst (step C R b now)))
  + Z.max 0 ((hi - last_refill (fst (step C R b now))) / R)
  <= 2 * C.
Proof.
  intros HC Htok Hlr Hlo Hlen. unfold step.
  rewrite consume_charge, consume_last_refill.
  pose proof (refill_tokens_le b now Htok) as Hle.
  assert ((hi - last_refill (refill C R b now)) / R <= C) as Hdiv; [|lia].
  unfold refill. destruct (0 <? _) eqn:E; simpl.
  - apply Z.div_le_upper_bound; [done|]. lia.
  - apply Z.ltb_ge in E.
    assert (now - last_refill b < R) as Hsmall.
    { destruct (Z.lt_ge_cases (now - last_refill b) R) as [|Hge]; [done|].
      pose proof (Z.div_le_mono R (now - last_refill b) R R_pos Hge) as Hm.
      rewrite Z.div_same in Hm by lia. lia. }
    apply Z.lt_succ_r. apply Z.div_lt_upper_bound; [done|]. lia.
Qed.

End TokenBucketArith.

(** ** The token bucket: runs *)

Lemma admits_cons (key : string) (lo hi : Z) (c : Call) (log : list Call) :
  admits key lo hi (c :: log) = charge (admitted_in key lo hi c) + admits key lo hi log.
Proof.
  unfold admits, charge. simpl. destruct (admitted_in key lo hi c); simpl; lia.
Qed.

Lemma admits_nonneg (key : string) (lo hi : Z) (log : list Call) :
  0 <= admits key lo hi log.
Proof. unfold admits. lia. Qed.

Lemma admitted_in_other (key : string) (lo hi : Z) (c : Call) :
  call_user c <> key -> admitted_in key lo hi c = false.
Proof. intros Hne. unfold admitted_in. by rewrite bool_decide_eq_false_2. Qed.

Lemma admitted_in_late (key : string) (lo hi : Z) (c : Call) :
  hi < call_time c -> admitted_in key lo hi c = false.
Proof.
  intros Hlate. unfold admitted_in.
  replace (call_time c <=? hi) with false by (symmetry; apply Z.leb_gt; lia).
  by rewrite andb_false_r.
Qed.

Lemma admitted_in_early (key : string) (lo hi : Z) (c : Call) :
  call_time c < lo -> admitted_in key lo hi c = false.
Proof.
  intros Hearly. unfold admitted_in.
  replace (lo <=? call_time c) with false by (symmetry; apply Z.leb_gt; lia).
  by rewrite andb_false_r.
Qed.

Lemma admitted_in_le (key : string) (lo hi : Z) (c : Call) :
  charge (admitted_in key lo hi c)
  <= charge (bool_decide (call_user c = key) && call_admitted c).
Proof.
  unfold admitted_in, charge.
  destruct (bool_decide _), (call_admitted c), (lo <=? _), (_ <=? hi); simpl; lia.
Qed.

Section TokenBucketRuns.

Import TokenBucketRateLimiter TokenBucketStep.

Variable key : string.
Variables lo hi : Z.

(** Once the clock has passed [hi], nothing more is admitted in the
    window. *)
Lemma trace_late (users : list string) :
  forall w : World t,
    non_decreasing (clock w) -> hi < peek (clock w) ->
    admits key lo hi (trace users w) = 0.
Proof.
  induction users as [|u rest IH]; intros w Hmono Hlate; [done|].
  cbn [trace]. rewrite admits_cons.
  destruct (call_time_bounds w u Hmono) as [H1 H2].
  rewrite admitted_in_late by (simpl; lia).
  rewrite IH; [done|by apply after_non_decreasing|lia].
Qed.

(** The admits of [key] up to the horizon [hi] are paid by the tokens
    in its bucket and the refills that can still fall before [hi]. *)
Lemma trace_potential (users : list string) :
  forall (w : World t) (b : Bucket),
    0 < refill_interval (self w) ->
    non_decreasing (clock w) ->
    buckets (self w) !! key = Some b ->
    last_refill b <= peek (clock w) ->
    admits key lo hi (trace users w)
    <= Z.max 0 (tokens b) + Z.max 0 ((hi - last_refill b) / refill_interval (self w)).
Proof.
  induction users as [|u rest IH]; intros w b HR Hmono Hb Hlr.
  { unfold admits. simpl. lia. }
  cbn [trace]. rewrite admits_cons.
  destruct (call_time_bounds w u Hmono) as [H1 H2].
  pose proof (after_non_decreasing w u Hmono) as Hmono'.
  destruct (decide (u = key)) as [->|Hne].
  - set (now := last_reading (clock_after w key)) in *.
    destruct (Z.lt_ge_cases hi now) as [Hlate|Hin].
    + rewrite admitted_in_late by done.
      rewrite trace_late by (done || lia). simpl. lia.
    + pose proof (after_lookup_eq w key) as Hb'. fold now in Hb'.
      assert (entry w key = b) as He by (unfold entry; by rewrite Hb).
      rewrite He in Hb'.
      assert (last_reading (clock_after w key) = peek (clock w)) as Hnow.
      { unfold clock_after. by rewrite Hb. }
      fold now in Hnow.
      set (C := capacity (self w)) in *. set (R := refill_interval (self w)) in *.
      pose proof (step_potential C R HR b now hi ltac:(lia) Hin) as Hpot.
      pose proof (admitted_in_le key lo hi (logged w key)) as Hle.
      simpl in Hle. rewrite bool_decide_eq_true_2 in Hle by done. simpl in Hle.
      unfold decision in Hle. rewrite He in Hle. fold C R now in Hle.
      assert (last_refill (fst (step C R b now)) <= now) as Hlr'.
      { unfold step. rewrite consume_last_refill.
        destruct (refill_last_refill C R HR b now) as [->| [-> _]]; lia. }
      specialize (IH (after w key) _ HR Hmono' Hb' ltac:(lia)).
      rewrite after_refill_interval in IH. fold R in IH.
      assert (0 <= (hi - last_refill (fst (step C R b now))) / R)
        by (apply Z.div_pos; lia).
      assert (0 <= (hi - last_refill b) / R) by (apply Z.div_pos; lia).
      lia.
  - rewrite admitted_in_other by done. simpl.
    rewrite <- (after_refill_interval w u).
    apply IH; try done.
    + by rewrite after_lookup_ne.
    + lia.
Qed.

Lemma entry_bounds (w : World t) (u : string) :
  (forall b, buckets (self w) !! u = Some b ->
             tokens b <= capacity (self w) /\ last_refill b <= peek (clock w)) ->
  tokens (entry w u) <= capacity (self w)
  /\ last_refill (entry w u) <= peek (clock w).
Proof.
  intros Hinv. unfold entry. destruct (_ !! u) as [b|]; simpl; [by apply Hinv|lia].
Qed.

Lemma step_bounds (C R : Z) (b : Bucket) (now : Z) :
  0 < R -> tokens b <= C -> last_refill b <= now ->
  tokens (fst (step C R b now)) <= C
  /\ last_refill (fst (step C R b now)) <= now.
Proof.
  intros HR Htok Hlr. unfold step. rewrite consume_last_refill. split.
  - pose proof (refill_tokens_le C R b now Htok).
    unfold consume. destruct (0 <? _); simpl; lia.
  - destruct (refill_last_refill C R HR b now) as [->| [-> _]]; lia.
Qed.

(** In a window no longer than [capacity * refill_interval] a key is
    admitted at most [2 * capacity] times: once per token it may hold
    when the window opens, once per refill inside the window. *)
Lemma trace_window (users : list string) :
  forall w : World t,
    0 < refill_interval (self w) ->
    0 <= capacity (self w) ->
    non_decreasing (clock w) ->
    hi - lo <= capacity (self w) * refill_interval (self w) ->
    (forall b, buckets (self w) !! key = Some b ->
               tokens b <= capacity (self w) /\ last_refill b <= peek (clock w)) ->
    admits key lo hi (trace users w) <= 2 * capacity (self w).
Proof.
  induction users as [|u rest IH]; intros w HR HC Hmono Hlen Hinv.
  { unfold admits. simpl. lia. }
  cbn [trace]. rewrite admits_cons.
  destruct (call_time_bounds w u Hmono) as [H1 H2].
  pose proof (after_non_decreasing w u Hmono) as Hmono'.
  destruct (decide (u = key)) as [->|Hne].
  - destruct (entry_bounds w key Hinv) as [Htok Hlr].
    set (now := last_reading (clock_after w key)) in *.
    set (C := capacity (self w)) in *. set (R := refill_interval (self w)) in *.
    pose proof (after_lookup_eq w key) as Hb'. fold now C R in Hb'.
    destruct (step_bounds C R (entry w key) now HR Htok ltac:(lia)) as [Htok' Hlr'].
    destruct (Z.lt_ge_cases now lo) as [Hearly|Hin].
    + rewrite admitted_in_early by done. simpl.
      apply (IH (after w key)); try done.
      intros b Hb. rewrite Hb' in Hb. injection Hb as <-.
      rewrite after_capacity. fold C. lia.
    + pose proof (trace_potential rest (after w key) _ HR Hmono' Hb'
                    ltac:(lia)) as Hpot.
      rewrite after_refill_interval in Hpot. fold R in Hpot.
      pose proof (step_window C R HR (entry w key) now lo hi HC Htok
                    ltac:(lia) Hin Hlen) as Hwin.
      pose proof (admitted_in_le key lo hi (logged w key)) as Hle.
      simpl in Hle. rewrite bool_decide_eq_true_2 in Hle by done. simpl in Hle.
      unfold decision in Hle. fold C R now in Hle. lia.
  - rewrite admitted_in_other by done. simpl.
    apply (IH (after w u)); try done.
    intros b Hb. rewrite after_lookup_ne in Hb by done.
    destruct (Hinv b Hb). rewrite after_capacity. split; [done|lia].
Qed.

End TokenBucketRuns.

(** ** The sliding window: one call *)

Section SlidingWindowCall.

Import SlidingWindowRateLimiter SlidingWindowStep.

Lemma SlidingWindow_is_allowed_eq (w : World t) (u : string) :
  is_allowed u w = (inr (decision w u), after w u).
Proof.
  destruct w as [[N W rs] ck].
  unfold is_allowed, decision, after, entry, step, prune.
  unfold bind, get_self, time_time, get_requests, set_requests, modify_self,
    ret, raise, bind, get_self.
  simpl.
  destruct (rs !! u) as [l|] eqn:Hl; simpl;
    repeat (progress (rewrite ?Hl, ?lookup_insert_eq; simpl));
    match goal with
    | |- context [?x <? N] => destruct (x <? N) eqn:Hroom
    end; simpl;
    repeat (progress (rewrite ?Hl, ?lookup_insert_eq, ?insert_insert_eq; simpl));
    done.
Qed.

Lemma SlidingWindow_observed_eq (w : World t) (u : string) :
  observed u w = (inr (logged w u), after w u).
Proof.
  unfold observed, bind. rewrite SlidingWindow_is_allowed_eq.
  unfold get, ret, logged. simpl. unfold last_reading, peek. done.
Qed.

Lemma SlidingWindow_calls_eq (users : list string) :
  forall w : World t, calls users w = (inr (trace users w), final users w).
Proof.
  induction users as [|u rest IH]; intros w; [done|].
  cbn [calls trace final]. unfold bind at 1.
  rewrite SlidingWindow_observed_eq.
  unfold bind at 1. by rewrite IH.
Qed.

Lemma sw_after_lookup_ne w u k :
  u <> k -> requests (self (after w u)) !! k = requests (self w) !! k.
Proof. intros Hne. unfold after. simpl. by rewrite lookup_insert_ne. Qed.

Lemma sw_after_lookup_eq w u :
  requests (self (after w u)) !! u =
  Some (fst (step (max_requests (self w)) (window (self w))
                  (entry w u) (peek (clock w)))).
Proof. unfold after. simpl. by rewrite lookup_insert_eq. Qed.

Lemma sw_after_peek w u :
  non_decreasing (clock w) ->
  peek (clock w) <= peek (clock (after w u))
  /\ non_decreasing (clock (after w u)).
Proof.
  intros Hmono. split; [|done].
  unfold after, peek. simpl. apply Hmono. lia.
Qed.

(** The head of a run, for a key whose stamps are stored and for a new
    key, with the outcome of the step named. *)
Lemma sw_trace_stored (N W : Z) (rs : gmap string (list Z)) (ck : Clock)
    (u : string) (rest : list string) (l l' : list Z) (ok : bool) :
  step N W l (peek ck) = (l', ok) ->
  trace (u :: rest)
    (boot {| max_requests := N; window := W; requests := <[u := l]> rs |} ck)
  = entry_of u (peek ck) ok
    :: trace rest
         (boot {| max_requests := N; window := W; requests := <[u := l']> rs |}
               (tick ck)).
Proof.
  intros Hstep. cbn [trace]. unfold logged, decision, after, entry, boot.
  cbn [self clock requests max_requests window].
  rewrite lookup_insert_eq. cbn [default from_option id].
  by rewrite Hstep, insert_insert_eq.
Qed.

Lemma sw_trace_new (N W : Z) (rs : gmap string (list Z)) (ck : Clock)
    (u : string) (rest : list string) (l' : list Z) (ok : bool) :
  rs !! u = None ->
  step N W [] (peek ck) = (l', ok) ->
  trace (u :: rest)
    (boot {| max_requests := N; window := W; requests := rs |} ck)
  = entry_of u (peek ck) ok
    :: trace rest
         (boot {| max_requests := N; window := W; requests := <[u := l']> rs |}
               (tick ck)).
Proof.
  intros Hnew Hstep. cbn [trace]. unfold logged, decision, after, entry, boot.
  cbn [self clock requests max_requests window].
  rewrite Hnew. cbn [default from_option id].
  by rewrite Hstep.
Qed.

End SlidingWindowCall.

(** ** The sliding window: runs *)

Section SlidingWindowRuns.

Import SlidingWindowRateLimiter SlidingWindowStep.

Variable key : string.
Variables lo hi : Z.

Lemma stamps_in_le_length (l : list Z) : stamps_in lo hi l <= Z.of_nat (length l).
Proof.
  unfold stamps_in. pose proof (List.filter_length_le (fun ts => (lo <=? ts) && (ts <=? hi)) l).
  lia.
Qed.

Lemma stamps_in_snoc (l : list Z) (x : Z) :
  stamps_in lo hi (l ++ [x]) = stamps_in lo hi l + charge ((lo <=? x) && (x <=? hi)).
Proof.
  unfold stamps_in, charge. rewrite List.filter_app, length_app. simpl.
  destruct ((lo <=? x) && (x <=? hi)); simpl; lia.
Qed.

Lemma prune_length (W now : Z) (l : list Z) :
  (length (prune W now l) <= length l)%nat.
Proof. apply List.filter_length_le. Qed.

(** Pruning at an instant [now <= hi] with [hi - lo < W] drops no
    stamp of the window [[lo, hi]]. *)
Lemma prune_stamps_in (W now : Z) (l : list Z) :
  now <= hi -> hi - lo < W ->
  stamps_in lo hi (prune W now l) = stamps_in lo hi l.
Proof.
  intros Hnow Hlen. unfold stamps_in, prune. f_equal. f_equal.
  induction l as [|ts l IH]; [done|]. simpl.
  destruct (now - ts <? W) eqn:Hkeep; simpl.
  - destruct ((lo <=? ts) && (ts <=? hi)); simpl; by rewrite IH.
  - apply Z.ltb_ge in Hkeep.
    replace (lo <=? ts) with false by (symmetry; apply Z.leb_gt; lia).
    done.
Qed.

Lemma sw_trace_late (users : list string) :
  forall w : World t,
    non_decreasing (clock w) -> hi < peek (clock w) ->
    admits key lo hi (trace users w) = 0.
Proof.
  induction users as [|u rest IH]; intros w Hmono Hlate; [done|].
  cbn [trace]. rewrite admits_cons.
  destruct (sw_after_peek w u Hmono) as [Hle Hmono'].
  rewrite admitted_in_late by (simpl; lia).
  rewrite IH; [done|done|lia].
Qed.

(** The stamps stored for [key] inside a window shorter than [window],
    together with the admits still to come inside it, never exceed
    [max_requests]. *)
Lemma sw_trace_window (users : list string) :
  forall w : World t,
    non_decreasing (clock w) ->
    hi - lo < window (self w) ->
    Z.of_nat (length (entry w key)) <= max_requests (self w) ->
    stamps_in lo hi (entry w key) + admits key lo hi (trace users w)
    <= max_requests (self w).
Proof.
  induction users as [|u rest IH]; intros w Hmono Hlen Hroom.
  { pose proof (stamps_in_le_length (entry w key)). unfold admits. simpl. lia. }
  cbn [trace]. rewrite admits_cons.
  destruct (sw_after_peek w u Hmono) as [Hle Hmono'].
  destruct (decide (u = key)) as [->|Hne].
  - set (now := peek (clock w)) in *.
    set (N := max_requests (self w)) in *. set (W := window (self w)) in *.
    destruct (Z.lt_ge_cases hi now) as [Hlate|Hin].
    + rewrite admitted_in_late by done.
      rewrite sw_trace_late by (done || lia).
      pose proof (stamps_in_le_length (entry w key)). simpl. lia.
    + assert (entry (after w key) key
              = fst (step N W (entry w key) now)) as He.
      { unfold entry at 1. by rewrite sw_after_lookup_eq. }
      specialize (IH (after w key) Hmono' Hlen). rewrite He in IH.
      change (max_requests (self (after w key))) with N in IH.
      pose proof (prune_stamps_in W now (entry w key) Hin Hlen) as Hprune.
      pose proof (prune_length W now (entry w key)) as Hshort.
      unfold admitted_in, logged, decision. simpl.
      rewrite bool_decide_eq_true_2 by done. fold N W now. simpl.
      unfold step in *.
      destruct (Z.of_nat (length (prune W now (entry w key))) <? N) eqn:Hfree;
        simpl in *.
      * apply Z.ltb_lt in Hfree.
        rewrite stamps_in_snoc, length_app in IH. simpl in IH.
        lia.
      * lia.
  - rewrite admitted_in_other by done. simpl.
    assert (entry (after w u) key = entry w key) as He.
    { unfold entry. by rewrite sw_after_lookup_ne. }
    rewrite <- He. apply (IH (after w u)); [done|done|]. by rewrite He.
Qed.

End SlidingWindowRuns.

(** ** Scripted clocks *)

Lemma ascending_hd (l : list Z) (final : Z) :
  ascending l final = true -> forall j : nat, hd final l <= nth j l final.
Proof.
  induction l as [|x rest IH]; intros Hasc j.
  - destruct j; simpl; lia.
  - simpl in Hasc. apply andb_true_iff in Hasc as [Hx Hrest].
    apply Z.leb_le in Hx. destruct j as [|j]; simpl; [lia|].
    specialize (IH Hrest j). lia.
Qed.

Lemma scripted_non_decreasing (l : list Z) (final : Z) :
  ascending l final = true -> non_decreasing (scripted l final).
Proof.
  unfold non_decreasing, scripted. simpl.
  induction l as [|x rest IH]; intros Hasc i j Hij.
  - destruct i, j; simpl; lia.
  - pose proof (ascending_hd _ _ Hasc) as Hhd.
    simpl in Hasc. apply andb_true_iff in Hasc as [Hx Hrest].
    destruct i as [|i].
    + apply (Hhd j).
    + destruct j as [|j]; [lia|]. simpl. apply IH; [done|lia].
Qed.

Lemma exactb_exact (z : Z) : exactb z = true -> exact z.
Proof.
  unfold exactb, exact. intros [H1 H2]%andb_true_iff.
  apply Z.leb_le in H1, H2. done.
Qed.

Lemma scripted_exact (l : list Z) (final : Z) :
  within_exact l final = true -> exact_clock (scripted l final).
Proof.
  unfold within_exact. intros Hall i. unfold scripted. simpl.
  apply exactb_exact. rewrite forallb_forall in Hall. apply Hall.
  destruct (Nat.lt_ge_cases i (length l)) as [Hlt|Hge].
  - right. by apply nth_In.
  - left. by rewrite nth_overflow.
Qed.

(** ** The claims on the token bucket *)

Section TokenBucketTheorems.

Import TokenBucketRateLimiter TokenBucketStep TokenBucketClaims.

(** C1, as stated, fails. With capacity 3 and a refill interval of 20
    the key is admitted three times at instant 0 and once more at
    instant 20: four admits inside the trailing window [[-40, 20]] of
    length 3 * 20, under a clock that never decreases. *)
Lemma bucket_bound_capacity_refuted :
  non_decreasing burst_then_refill
  /\ (exists (log : list Call) (w' : World t),
        calls ["user_1"; "user_1"; "user_1"; "user_1"]
              (boot (init 3 20) burst_then_refill) = (inr log, w')
        /\ admits "user_1" (20 - 3 * 20) 20 log = 4)
  /\ ~ admits_bounded_by 3 3 20 burst_then_refill
        ["user_1"; "user_1"; "user_1"; "user_1"] "user_1".
Proof.
  split; [by apply scripted_non_decreasing|]. split.
  - do 2 eexists. rewrite TokenBucket_calls_eq by done. split; reflexivity.
  - intros (log & w' & Hrun & Hbound).
    rewrite TokenBucket_calls_eq in Hrun by done.
    injection Hrun as <- _. specialize (Hbound 20).
    vm_compute in Hbound. by apply Hbound.
Qed.

(** C1, amended. For every key and every sequence of calls on a fresh
    token bucket with capacity [C >= 0] and refill interval [R > 0],
    under a clock that never decreases and with the interval and every
    reading an integer of the exact range (so that the source's
    [now - last_refill] and [elapsed // refill_interval] are not
    rounded), the run returns and in every trailing window
    [[t - C * R, t]] at most [2 * C] calls of the key are admitted. *)
Theorem bucket_bound_twice_capacity (C R : Z) (ck : Clock)
    (users : list string) (key : string) :
  0 <= C -> 0 < R -> exact R -> exact_clock ck -> non_decreasing ck ->
  admits_bounded_by (2 * C) C R ck users key.
Proof.
  intros HC HR _ _ Hmono. exists (trace users (boot (init C R) ck)), (final users (boot (init C R) ck)).
  split.
  - apply TokenBucket_calls_eq. simpl. lia.
  - intros t'.
    apply (trace_window key (t' - C * R) t' users (boot (init C R) ck)); simpl;
      done || lia.
Qed.

(** The bound of [2 * C] is reached: capacity 3, interval 20, six
    admits in the window [[0, 60]]. *)
Remark twice_capacity_is_reached :
  admits "user_1" (60 - 3 * 20) 60
    (trace ["user_1"; "user_1"; "user_1"; "user_1"; "user_1"; "user_1"]
           (boot (init 3 20) burst_then_trickle)) = 2 * 3.
Proof. reflexivity. Qed.

Lemma bucket_bound_twice_capacity_witness :
  admits_bounded_by (2 * 3) 3 20 burst_then_refill
    ["user_1"; "user_1"; "user_1"; "user_1"] "user_1".
Proof.
  apply bucket_bound_twice_capacity.
  - lia.
  - lia.
  - by apply exactb_exact.
  - by apply scripted_exact.
  - by apply scripted_non_decreasing.
Defined.

(** C2, as stated, fails. A drained bucket last refilled at instant 0,
    with a refill interval of 20, is called at instant 30: one token is
    due, and the claim puts [last_refill] at 0 + 1 * 20 = 20; the call
    leaves it at 30. *)
Lemma refill_keeps_remainder_refuted :
  0 < tokens_to_add drained_at_30 "user_1"
  /\ last_refill (entry drained_at_30 "user_1")
     + tokens_to_add drained_at_30 "user_1" * refill_interval (self drained_at_30)
     = 20
  /\ buckets (self (after drained_at_30 "user_1")) !! "user_1"
     = Some {| tokens := 0; last_refill := 30 |}
  /\ ~ refilled_to drained_at_30 "user_1"
        (last_refill (entry drained_at_30 "user_1")
         + tokens_to_add drained_at_30 "user_1"
           * refill_interval (self drained_at_30)).
Proof.
  split; [by vm_compute|]. split; [by vm_compute|]. split; [by vm_compute|].
  intros (ok & w' & b' & Hcall & Hb' & _ & _ & Hlr).
  rewrite TokenBucket_is_allowed_eq in Hcall by done.
  injection Hcall as _ <-. rewrite after_lookup_eq in Hb'.
  injection Hb' as <-. vm_compute in Hlr. discriminate.
Qed.

(** C2, amended. On a call where [tokens_to_add] is positive, the
    bucket's tokens become [min(capacity, tokens + tokens_to_add)]
    (less the one token the decision of the same call charges) and
    [last_refill] is set to [now]: the remainder of the elapsed time is
    dropped. *)
Theorem refill_sets_last_refill_to_now (w : World t) (u : string) :
  0 < tokens_to_add w u -> refilled_to w u (call_now w u).
Proof.
  intros Hadd.
  assert (refill_interval (self w) <> 0) as HR.
  { intros HR. unfold tokens_to_add in Hadd. rewrite HR, Z.div_0_r in Hadd. lia. }
  exists (decision w u), (after w u).
  eexists. split; [by apply TokenBucket_is_allowed_eq|].
  split; [by apply after_lookup_eq|].
  unfold decision, step, refill, tokens_to_add, call_now in *.
  apply Z.ltb_lt in Hadd. rewrite Hadd. unfold consume. simpl.
  clear Hadd.
  match goal with |- context [0 <? ?x] => destruct (0 <? x) end;
    simpl; repeat split; done || lia.
Qed.

Lemma refill_sets_last_refill_to_now_witness :
  refilled_to drained_at_30 "user_1" 30.
Proof.
  apply (refill_sets_last_refill_to_now drained_at_30 "user_1"). by vm_compute.
Defined.




(** One call keeps every token count in range and moves no
    [last_refill] backwards. *)
Lemma after_invariant (w : World t) (u : string) :
  0 <= capacity (self w) -> 0 < refill_interval (self w) ->
  tokens_in_range (self w) ->
  tokens_in_range (self (after w u))
  /\ last_refill_advances (self w) (self (after w u)).
Proof.
  intros HC HR Hinv.
  set (C := capacity (self w)) in *. set (R := refill_interval (self w)) in *.
  set (now := last_reading (clock_after w u)).
  assert (0 <= tokens (entry w u) <= C) as Hentry.
  { unfold entry. destruct (buckets (self w) !! u) as [b|] eqn:Hb; simpl.
    - by apply (Hinv u).
    - fold C. lia. }
  assert (0 <= tokens (fst (step C R (entry w u) now)) <= C) as Hstep.
  { pose proof (refill_tokens_le C R (entry w u) now ltac:(lia)).
    pose proof (refill_tokens_ge C R (entry w u) now HC ltac:(lia)).
    unfold step, consume. destruct (0 <? _) eqn:E; simpl; [|lia].
    apply Z.ltb_lt in E. lia. }
  split.
  - intros k b Hb. rewrite after_capacity. fold C.
    destruct (decide (u = k)) as [<-|Hne].
    + rewrite after_lookup_eq in Hb. injection Hb as <-. done.
    + rewrite after_lookup_ne in Hb by done. by apply (Hinv k).
  - intros k b Hb. destruct (decide (u = k)) as [<-|Hne].
    + eexists. split; [by apply after_lookup_eq|].
      fold C R now. unfold step. rewrite consume_last_refill.
      assert (entry w u = b) as -> by (unfold entry; by rewrite Hb).
      destruct (refill_last_refill C R HR b now) as [->| [-> ?]]; lia.
    + exists b. by rewrite after_lookup_ne.
Qed.

(** C9. From any state whose buckets all hold between 0 and [capacity]
    tokens (a fresh limiter is one), with [capacity >= 0] and a positive
    refill interval, every sequence of [is_allowed] calls returns, keeps
    every bucket between 0 and [capacity] tokens, and moves no key's
    [last_refill] backwards. *)
Theorem token_bucket_state_invariant (users : list string) :
  forall w : World t,
    0 <= capacity (self w) -> 0 < refill_interval (self w) ->
    tokens_in_range (self w) ->
    exists (log : list Call) (w' : World t),
      calls users w = (inr log, w')
      /\ tokens_in_range (self w')
      /\ last_refill_advances (self w) (self w').
Proof.
  intros w HC HR Hinv. exists (trace users w), (final users w).
  split; [apply TokenBucket_calls_eq; lia|].
  revert w HC HR Hinv.
  induction users as [|u rest IH]; intros w HC HR Hinv; simpl.
  - split; [done|]. intros k b Hb. exists b. split; [done|lia].
  - destruct (after_invariant w u HC HR Hinv) as [Hinv' Hadv].
    destruct (IH (after w u) HC HR Hinv') as [Hfin Hadv'].
    split; [done|]. intros k b Hb.
    destruct (Hadv k b Hb) as (b1 & Hb1 & Hle1).
    destruct (Hadv' k b1 Hb1) as (b2 & Hb2 & Hle2).
    exists b2. split; [done|lia].
Qed.

Lemma fresh_tokens_in_range (C R : Z) : tokens_in_range (init C R).
Proof. intros k b Hb. simpl in Hb. by rewrite lookup_empty in Hb. Qed.

Lemma token_bucket_state_invariant_witness :
  exists (log : list Call) (w' : World t),
    calls ["user_1"; "user_2"; "user_1"] drained_at_30 = (inr log, w')
    /\ tokens_in_range (self w')
    /\ last_refill_advances (self drained_at_30) (self w').
Proof.
  apply (token_bucket_state_invariant ["user_1"; "user_2"; "user_1"] drained_at_30).
  - simpl. lia.
  - simpl. lia.
  - intros k b Hb. simpl in Hb. apply lookup_singleton_Some in Hb as [_ <-].
    simpl. lia.
Defined.





(** C5. On a token bucket with capacity 3 and a refill interval of 20,
    a key not seen before is admitted by three calls at instant 0, which
    exhaust its tokens; its call at 19 is denied, its call at 20 is
    admitted and a second call at 20 is denied. *)
Theorem refill_determinism (l : t) (u : string) :
  capacity l = 3 -> refill_interval l = 20 -> buckets l !! u = None ->
  exists w' : World t,
    calls [u; u; u; u; u; u] (boot l exhaust_and_wait)
    = (inr [entry_of u 0 true; entry_of u 0 true; entry_of u 0 true;
            entry_of u 19 false; entry_of u 20 true; entry_of u 20 false], w').
Proof.
  intros HC HR Hnew. destruct l as [C R bs]. simpl in HC, HR, Hnew. subst C R.
  eexists. rewrite TokenBucket_calls_eq by done. f_equal.
  erewrite trace_new; [|done|by vm_compute].
  do 5 (erewrite trace_stored; [|by vm_compute]).
  reflexivity.
Qed.

Lemma refill_determinism_witness :
  exists w' : World t,
    calls ["user_1"; "user_1"; "user_1"; "user_1"; "user_1"; "user_1"]
          (boot (init 3 20) exhaust_and_wait)
    = (inr [entry_of "user_1" 0 true; entry_of "user_1" 0 true;
            entry_of "user_1" 0 true; entry_of "user_1" 19 false;
            entry_of "user_1" 20 true; entry_of "user_1" 20 false], w').
Proof.
  apply (refill_determinism (init 3 20) "user_1"); reflexivity.
Defined.

End TokenBucketTheorems.

(** ** The claims on the sliding window *)

Section SlidingWindowTheorems.

Import SlidingWindowRateLimiter SlidingWindowStep SlidingWindowClaims.

(** C4, as stated, fails for a closed window of length [window]. With
    [max_requests = 1] and [window = 60] the key is admitted at instant
    0 and again at instant 60, where the stamp of 0 is exactly one
    window old and is pruned: two admits inside [[0, 60]], under a
    clock that never decreases and whose readings are exact. *)
Lemma sliding_bound_closed_window_refuted :
  non_decreasing one_window_apart
  /\ exact_clock one_window_apart
  /\ (exists (log : list Call) (w' : World t),
        calls ["user_1"; "user_1"] (boot (init 1 60) one_window_apart)
        = (inr log, w')
        /\ admits "user_1" (60 - 60) 60 log = 2)
  /\ ~ admits_within_closed_window 1 60 one_window_apart
        ["user_1"; "user_1"] "user_1".
Proof.
  split; [by apply scripted_non_decreasing|].
  split; [by apply scripted_exact|]. split.
  - do 2 eexists. rewrite SlidingWindow_calls_eq. split; reflexivity.
  - intros (log & w' & Hrun & Hbound).
    rewrite SlidingWindow_calls_eq in Hrun.
    injection Hrun as <- _. specialize (Hbound 60).
    vm_compute in Hbound. by apply Hbound.
Qed.

(** C4, amended. For every key and every sequence of calls on a fresh
    sliding window limiter with [max_requests = N >= 0] and
    [window = W], under a clock that never decreases and whose readings
    are integers of the exact range (so that the source's [now - ts] is
    not rounded), the run returns and the admitted calls of the key
    whose instants lie in a half-open window [(t - W, t]] never number
    more than [N]. *)
Theorem sliding_bound (N W : Z) (ck : Clock) (users : list string) (key : string) :
  0 <= N -> exact_clock ck -> non_decreasing ck ->
  admits_within_window N W ck users key.
Proof.
  intros HN _ Hmono.
  exists (trace users (boot (init N W) ck)), (final users (boot (init N W) ck)).
  split; [apply SlidingWindow_calls_eq|]. intros t'.
  pose proof (sw_trace_window key (t' - W + 1) t' users (boot (init N W) ck)
                Hmono) as Hwin.
  simpl in Hwin. unfold entry in Hwin. simpl in Hwin.
  rewrite lookup_empty in Hwin. simpl in Hwin.
  unfold stamps_in in Hwin. simpl in Hwin.
  specialize (Hwin ltac:(lia) HN). lia.
Qed.

Lemma sliding_bound_witness :
  admits_within_window 5 60 five_then_two
    ["user_1"; "user_1"; "user_1"; "user_1"; "user_1"; "user_1"; "user_1"]
    "user_1".
Proof.
  apply sliding_bound.
  - lia.
  - by apply scripted_exact.
  - by apply scripted_non_decreasing.
Defined.

(** The window of C4 is open at its older end: a stamp exactly [window]
    old is pruned, so the closed interval [[0, 60]] holds two admits of
    a limiter with [max_requests = 1] and [window = 60]. *)
Remark sliding_window_edge :
  admits "user_1" 0 60
    (trace ["user_1"; "user_1"] (boot (init 1 60) one_window_apart)) = 2.
Proof. reflexivity. Qed.

(** C6. On a sliding window limiter with [max_requests = 5] and
    [window = 60], five calls of a key not seen before at instant 0 are
    all admitted, a sixth call at 30 is denied, and a seventh call at
    61 is admitted. *)
Theorem sliding_exactness (l : t) (u : string) :
  max_requests l = 5 -> window l = 60 -> requests l !! u = None ->
  exists w' : World t,
    calls [u; u; u; u; u; u; u] (boot l five_then_two)
    = (inr [entry_of u 0 true; entry_of u 0 true; entry_of u 0 true;
            entry_of u 0 true; entry_of u 0 true;
            entry_of u 30 false; entry_of u 61 true], w').
Proof.
  intros HN HW Hnew. destruct l as [N W rs]. simpl in HN, HW, Hnew. subst N W.
  eexists. rewrite SlidingWindow_calls_eq. f_equal.
  erewrite sw_trace_new; [|done|by vm_compute].
  do 6 (erewrite sw_trace_stored; [|by vm_compute]).
  reflexivity.
Qed.

Lemma sliding_exactness_witness :
  exists w' : World t,
    calls ["user_1"; "user_1"; "user_1"; "user_1"; "user_1"; "user_1"; "user_1"]
          (boot (init 5 60) five_then_two)
    = (inr [entry_of "user_1" 0 true; entry_of "user_1" 0 true;
            entry_of "user_1" 0 true; entry_of "user_1" 0 true;
            entry_of "user_1" 0 true;
            entry_of "user_1" 30 false; entry_of "user_1" 61 true], w').
Proof.
  apply (sliding_exactness (init 5 60) "user_1"); reflexivity.
Defined.

End SlidingWindowTheorems.

(** ** The claims on the factory *)

Section FactoryTheorems.

Import RateLimiterFactory FactoryClaims.

(** C3, as stated, fails: [create("token_bucket", capacity=0)] does not
    raise; it returns a token bucket of capacity 0 with the default
    refill interval. *)
Lemma fail_fast_refuted :
  create "token_bucket" (<["capacity" := 0]> ∅)
  = inr (TokenBucket (TokenBucketRateLimiter.init 0 20))
  /\ ~ construction_fails "token_bucket" (<["capacity" := 0]> ∅).
Proof.
  split; [by vm_compute|].
  intros [e He]. vm_compute in He. discriminate.
Qed.

(** C3, amended. The constructors check no number: for every
    [capacity]/[max_requests] and every [refill_interval]/[window],
    non-positive ones included, construction through the factory
    succeeds and the limiter stores the values as given; a keyword left
    out takes its default. *)
Theorem construction_checks_no_number (n d : Z) :
  create "token_bucket" (keywords "capacity" n "refill_interval" d)
  = inr (TokenBucket (TokenBucketRateLimiter.init n d))
  /\ create "sliding_window" (keywords "max_requests" n "window" d)
     = inr (SlidingWindow (SlidingWindowRateLimiter.init n d))
  /\ create "token_bucket" (<["capacity" := n]> ∅)
     = inr (TokenBucket (TokenBucketRateLimiter.init n 20))
  /\ create "sliding_window" (<["max_requests" := n]> ∅)
     = inr (SlidingWindow (SlidingWindowRateLimiter.init n 60)).
Proof. repeat split; by vm_compute. Qed.

(** C8. For every [limiter_type] other than ["token_bucket"] and
    ["sliding_window"], and whatever the keywords, [create] raises
    [ValueError("Unknown rate limiter algorithm.")] and returns no
    limiter. *)
Theorem unknown_algorithm_raises (limiter_type : string) (kwargs : gmap string Z) :
  limiter_type <> "token_bucket" ->
  limiter_type <> "sliding_window" ->
  create limiter_type kwargs = inl (ValueError "Unknown rate limiter algorithm.").
Proof.
  intros Htb Hsw. unfold create.
  destruct (decide (limiter_type = "token_bucket")); [done|].
  destruct (decide (limiter_type = "sliding_window")); [done|].
  reflexivity.
Qed.

Lemma unknown_algorithm_raises_witness :
  create "unknown_algo" (keywords "capacity" 3 "refill_interval" 20)
  = inl (ValueError "Unknown rate limiter algorithm.").
Proof.
  apply (unknown_algorithm_raises "unknown_algo"); discriminate.
Defined.

End FactoryTheorems.

(** * Further properties of the token bucket *)

Section TokenBucketBehaviour.

Import TokenBucketRateLimiter TokenBucketStep TokenBucketClaims.

Lemma occurrences_cons_eq (u : string) (users : list string) :
  occurrences u (u :: users) = 1 + occurrences u users.
Proof.
  unfold occurrences. simpl. rewrite bool_decide_eq_true_2 by done. simpl. lia.
Qed.

Lemma occurrences_cons_ne (u v : string) (users : list string) :
  v <> u -> occurrences u (v :: users) = occurrences u users.
Proof.
  intros Hne. unfold occurrences. simpl. by rewrite bool_decide_eq_false_2.
Qed.

Lemma occurrences_nonneg (u : string) (users : list string) :
  0 <= occurrences u users.
Proof. unfold occurrences. lia. Qed.

(** A refill never takes tokens away from a bucket within capacity. *)
Lemma refill_keeps_tokens (C R : Z) (b : Bucket) (now : Z) :
  tokens b <= C -> tokens b <= tokens (refill C R b now).
Proof.
  intros Hle. unfold refill. destruct (0 <? _) eqn:E; simpl; [|lia].
  apply Z.ltb_lt in E. lia.
Qed.

Lemma refill_within_capacity (C R : Z) (b : Bucket) (now : Z) :
  tokens b <= C -> tokens (refill C R b now) <= C.
Proof. intros Hle. unfold refill. destruct (0 <? _); simpl; lia. Qed.

Lemma entry_tokens_ne (w : World t) (u k : string) :
  u <> k -> tokens (entry (after w u) k) = tokens (entry w k).
Proof.
  intros Hne. unfold entry. rewrite after_lookup_ne by done.
  by destruct (buckets (self w) !! k).
Qed.

Lemma entry_after_eq (w : World t) (u : string) :
  entry (after w u) u
  = fst (step (capacity (self w)) (refill_interval (self w)) (entry w u)
              (last_reading (clock_after w u))).
Proof. unfold entry at 1. by rewrite after_lookup_eq. Qed.

(** While the bucket of [u] holds at least as many tokens as [u] has
    calls left, every call of [u] is admitted. *)
Lemma trace_budget (u : string) (users : list string) :
  forall w : World t,
    tokens (entry w u) <= capacity (self w) ->
    occurrences u users <= tokens (entry w u) ->
    decided u true (trace users w).
Proof.
  induction users as [|v rest IH]; intros w Hcap Hocc; [constructor|].
  cbn [trace]. destruct (decide (v = u)) as [->|Hne].
  - rewrite occurrences_cons_eq in Hocc.
    pose proof (occurrences_nonneg u rest) as Hnn.
    set (C := capacity (self w)) in *. set (R := refill_interval (self w)) in *.
    set (now := last_reading (clock_after w u)).
    pose proof (refill_keeps_tokens C R (entry w u) now Hcap) as Hkeep.
    pose proof (refill_within_capacity C R (entry w u) now Hcap) as Hin.
    assert (step C R (entry w u) now
            = ({| tokens := tokens (refill C R (entry w u) now) - 1;
                  last_refill := last_refill (refill C R (entry w u) now) |}, true))
      as Hstep.
    { unfold step, consume. replace (0 <? _) with true; [done|].
      symmetry. apply Z.ltb_lt. lia. }
    constructor.
    + intros _. simpl. unfold decision. fold C R now. by rewrite Hstep.
    + apply IH.
      * rewrite entry_after_eq. fold C R now. rewrite Hstep.
        change (capacity (self (after w u))) with C. simpl. lia.
      * rewrite entry_after_eq. fold C R now. rewrite Hstep. simpl. lia.
  - rewrite occurrences_cons_ne in Hocc by done. constructor.
    + intros Heq. simpl in Heq. done.
    + apply IH; rewrite entry_tokens_ne by done; done.
Qed.

Lemma trace_users (users : list string) :
  forall w : World t, map call_user (trace users w) = users.
Proof.
  induction users as [|v rest IH]; intros w; [done|].
  cbn [trace map]. by rewrite IH.
Qed.



(** X2. A drained bucket (no token left, capacity at least 1, refill
    interval positive) admits its key's next call exactly when a full
    refill interval has passed since [last_refill], provided the
    interval, [last_refill] and the reading are integers of the exact
    range, so that the source computes the elapsed time and its floor
    quotient without rounding. *)
Theorem drained_bucket_admits_after_interval (w : World t) (u : string) (b : Bucket) :
  1 <= capacity (self w) -> 0 < refill_interval (self w) ->
  exact (refill_interval (self w)) -> exact (last_refill b) ->
  exact (peek (clock w)) ->
  buckets (self w) !! u = Some b -> tokens b = 0 ->
  exists (ok : bool) (w' : World t),
    is_allowed u w = (inr ok, w')
    /\ (ok = true <-> last_refill b + refill_interval (self w) <= peek (clock w)).
Proof.
  intros HC HR _ _ _ Hb Hzero.
  exists (decision w u), (after w u).
  split; [apply TokenBucket_is_allowed_eq; lia|].
  assert (entry w u = b) as He by (unfold entry; by rewrite Hb).
  assert (last_reading (clock_after w u) = peek (clock w)) as Hnow.
  { unfold clock_after. by rewrite Hb. }
  unfold decision. rewrite He, Hnow.
  set (C := capacity (self w)) in *. set (R := refill_interval (self w)) in *.
  set (now := peek (clock w)).
  unfold step, refill, consume.
  destruct (Z.le_gt_cases (last_refill b + R) now) as [Hdue|Hearly].
  - assert (1 <= (now - last_refill b) / R) as Hadd.
    { apply Z.div_le_lower_bound; lia. }
    replace (0 <? (now - last_refill b) / R) with true
      by (symmetry; apply Z.ltb_lt; lia).
    simpl. replace (0 <? _) with true by (symmetry; apply Z.ltb_lt; lia).
    simpl. split; done.
  - assert ((now - last_refill b) / R <= 0) as Hadd.
    { apply Z.lt_succ_r. apply Z.div_lt_upper_bound; lia. }
    replace (0 <? (now - last_refill b) / R) with false
      by (symmetry; apply Z.ltb_ge; lia).
    replace (0 <? tokens b) with false by (symmetry; apply Z.ltb_ge; lia).
    simpl. split; [done|lia].
Qed.

Lemma drained_bucket_admits_after_interval_witness :
  exists (ok : bool) (w' : World t),
    is_allowed "user_1" drained_at_30 = (inr ok, w')
    /\ (ok = true <-> 0 + 20 <= 30).
Proof.
  apply (drained_bucket_admits_after_interval drained_at_30 "user_1"
           {| tokens := 0; last_refill := 0 |}).
  - simpl. lia.
  - simpl. lia.
  - by apply exactb_exact.
  - by apply exactb_exact.
  - by apply exactb_exact.
  - reflexivity.
  - reflexivity.
Defined.

(** X3. A denied call costs nothing. With capacity at least 1, a
    positive refill interval and every bucket in range, a call that
    returns false leaves the limiter object exactly as it was. *)
Theorem denied_call_changes_nothing (w w' : World t) (u : string) :
  1 <= capacity (self w) -> 0 < refill_interval (self w) ->
  tokens_in_range (self w) ->
  is_allowed u w = (inr false, w') ->
  self w' = self w.
Proof.
  intros HC HR Hinv Hcall.
  rewrite TokenBucket_is_allowed_eq in Hcall by lia.
  injection Hcall as Hdec <-.
  unfold decision, step in Hdec.
  set (C := capacity (self w)) in *. set (R := refill_interval (self w)) in *.
  set (now := last_reading (clock_after w u)) in *.
  assert (0 <= tokens (entry w u) <= C) as Hentry.
  { unfold entry. destruct (buckets (self w) !! u) as [b|] eqn:Hb; simpl.
    - by apply (Hinv u).
    - fold C. lia. }
  assert (tokens (refill C R (entry w u) now) <= 0) as Hempty.
  { unfold consume in Hdec. destruct (0 <? _) eqn:E; [done|].
    by apply Z.ltb_ge in E. }
  assert (refill C R (entry w u) now = entry w u) as Hsame.
  { unfold refill in *. destruct (0 <? _) eqn:E; [|done].
    apply Z.ltb_lt in E. simpl in Hempty. lia. }
  assert (buckets (self w) !! u = Some (entry w u)) as Hstored.
  { unfold entry in *. destruct (buckets (self w) !! u) as [b|] eqn:Hb; [done|].
    exfalso. rewrite Hsame in Hempty. simpl in Hempty. fold C in Hempty. lia. }
  unfold after. cbn [self]. fold C R now. unfold step.
  rewrite Hsame. unfold consume.
  replace (0 <? tokens (entry w u)) with false
    by (symmetry; apply Z.ltb_ge; rewrite <- Hsame; lia).
  cbn [fst]. rewrite insert_id by done.
  by destruct (self w).
Qed.

Lemma denied_call_changes_nothing_witness :
  self (after drained_at_10 "user_1") = self drained_at_10.
Proof.
  apply (denied_call_changes_nothing drained_at_10
           (after drained_at_10 "user_1") "user_1").
  - simpl. lia.
  - simpl. lia.
  - intros k b Hb. simpl in Hb. apply lookup_singleton_Some in Hb as [_ <-].
    simpl. lia.
  - rewrite TokenBucket_is_allowed_eq by done. reflexivity.
Defined.

(** X4. With [refill_interval = 0] every call raises
    [ZeroDivisionError] at the floor division of line 29; by then the
    bucket of a new key has already been stored, and no other bucket is
    touched. *)
Theorem zero_interval_raises (w : World t) (u : string) :
  refill_interval (self w) = 0 ->
  exists w' : World t,
    is_allowed u w = (inl ZeroDivisionError, w')
    /\ buckets (self w') !! u = Some (entry w u)
    /\ forall k : string, k <> u -> buckets (self w') !! k = buckets (self w) !! k.
Proof.
  intros HR. eexists. split; [by apply TokenBucket_is_allowed_zero|].
  cbn [self buckets]. split; [by rewrite lookup_insert_eq|].
  intros k Hne. by rewrite lookup_insert_ne.
Qed.

Lemma zero_interval_raises_witness :
  exists w' : World t,
    is_allowed "user_1" (boot (init 3 0) burst_then_trickle)
    = (inl ZeroDivisionError, w')
    /\ buckets (self w') !! "user_1"
       = Some (entry (boot (init 3 0) burst_then_trickle) "user_1")
    /\ forall k : string, k <> "user_1" ->
         buckets (self w') !! k = buckets (init 3 0) !! k.
Proof.
  apply (zero_interval_raises (boot (init 3 0) burst_then_trickle) "user_1").
  reflexivity.
Defined.

(** The first call inside a window [[lo, hi]] leaves a potential of at
    most [C + floor((hi - lo) / R) + 1], its own admit included. *)
Lemma step_rate (C R : Z) (b : Bucket) (now lo hi : Z) :
  0 < R -> 0 <= C -> tokens b <= C ->
  last_refill b <= now -> lo <= now -> lo <= hi ->
  charge (snd (step C R b now))
  + Z.max 0 (tokens (fst (step C R b now)))
  + Z.max 0 ((hi - last_refill (fst (step C R b now))) / R)
  <= C + (hi - lo) / R + 1.
Proof.
  intros HR HC Htok Hlr Hlo Hlen. unfold step.
  rewrite consume_charge, consume_last_refill.
  pose proof (refill_within_capacity C R b now Htok) as Hle.
  assert (0 <= (hi - lo) / R) as Hnn by (apply Z.div_pos; lia).
  assert ((hi - last_refill (refill C R b now)) / R <= (hi - lo) / R + 1) as Hdiv;
    [|lia].
  unfold refill. destruct (0 <? _) eqn:E; simpl.
  - pose proof (Z.div_le_mono (hi - now) (hi - lo) R HR ltac:(lia)). lia.
  - apply Z.ltb_ge in E.
    assert (now - last_refill b < R) as Hsmall.
    { destruct (Z.lt_ge_cases (now - last_refill b) R) as [|Hge]; [done|].
      pose proof (Z.div_le_mono R (now - last_refill b) R HR Hge) as Hm.
      rewrite Z.div_same in Hm by lia. lia. }
    rewrite <- (Z.div_add (hi - lo) 1 R) by lia.
    apply Z.div_le_mono; lia.
Qed.

Section TokenBucketRate.

Variable key : string.
Variables lo hi : Z.
Hypothesis window_ordered : lo <= hi.

Lemma trace_rate (users : list string) :
  forall w : World t,
    0 < refill_interval (self w) ->
    0 <= capacity (self w) ->
    non_decreasing (clock w) ->
    (forall b, buckets (self w) !! key = Some b ->
               tokens b <= capacity (self w) /\ last_refill b <= peek (clock w)) ->
    admits key lo hi (trace users w)
    <= capacity (self w) + (hi - lo) / refill_interval (self w) + 1.
Proof.
  induction users as [|u rest IH]; intros w HR HC Hmono Hinv.
  { assert (0 <= (hi - lo) / refill_interval (self w)) by (apply Z.div_pos; lia).
    unfold admits. simpl. lia. }
  cbn [trace]. rewrite admits_cons.
  destruct (call_time_bounds w u Hmono) as [H1 H2].
  pose proof (after_non_decreasing w u Hmono) as Hmono'.
  destruct (decide (u = key)) as [->|Hne].
  - destruct (entry_bounds w key Hinv) as [Htok Hlr].
    set (now := last_reading (clock_after w key)) in *.
    set (C := capacity (self w)) in *. set (R := refill_interval (self w)) in *.
    pose proof (after_lookup_eq w key) as Hb'. fold now C R in Hb'.
    destruct (step_bounds C R (entry w key) now HR Htok ltac:(lia)) as [Htok' Hlr'].
    destruct (Z.lt_ge_cases now lo) as [Hearly|Hin].
    + rewrite admitted_in_early by done. simpl.
      apply (IH (after w key)); try done.
      intros b Hb. rewrite Hb' in Hb. injection Hb as <-.
      change (capacity (self (after w key))) with C. lia.
    + pose proof (trace_potential key lo hi rest (after w key) _ HR Hmono' Hb'
                    ltac:(lia)) as Hpot.
      change (refill_interval (self (after w key))) with R in Hpot.
      pose proof (step_rate C R (entry w key) now lo hi HR HC Htok
                    ltac:(lia) Hin window_ordered) as Hwin.
      pose proof (admitted_in_le key lo hi (logged w key)) as Hle.
      simpl in Hle. rewrite bool_decide_eq_true_2 in Hle by done. simpl in Hle.
      unfold decision in Hle. fold C R now in Hle. lia.
  - rewrite admitted_in_other by done. simpl.
    apply (IH (after w u)); try done.
    intros b Hb. rewrite after_lookup_ne in Hb by done.
    destruct (Hinv b Hb). change (capacity (self (after w u))) with (capacity (self w)).
    split; [done|lia].
Qed.

End TokenBucketRate.

(** X5. Rate bound. On a fresh token bucket with capacity [C >= 0] and
    refill interval [R > 0], under a clock that never decreases, the
    interval and every reading being integers of the exact range (so
    that the source rounds neither the elapsed time nor its floor
    quotient), a key is admitted at most [C + floor((hi - lo) / R) + 1]
    times in any window [[lo, hi]]: the burst, one admit per interval,
    and one more because the first call of a new key reads the clock
    twice and may start the bucket before the window opens. *)
Theorem token_bucket_rate_bound (C R : Z) (ck : Clock)
    (users : list string) (key : string) (lo hi : Z) :
  0 <= C -> 0 < R -> exact R -> exact_clock ck -> non_decreasing ck -> lo <= hi ->
  exists (log : list Call) (w' : World t),
    calls users (boot (init C R) ck) = (inr log, w')
    /\ admits key lo hi log <= C + (hi - lo) / R + 1.
Proof.
  intros HC HR _ _ Hmono Hlen.
  exists (trace users (boot (init C R) ck)), (final users (boot (init C R) ck)).
  split; [apply TokenBucket_calls_eq; simpl; lia|].
  apply (trace_rate key lo hi Hlen users (boot (init C R) ck)); simpl;
    done || lia.
Qed.

Lemma token_bucket_rate_bound_witness :
  exists (log : list Call) (w' : World t),
    calls ["user_1"; "user_1"; "user_1"] (boot (init 1 20) straddling)
    = (inr log, w')
    /\ admits "user_1" 0 19 log <= 1 + (19 - 0) / 20 + 1.
Proof.
  apply (token_bucket_rate_bound 1 20 straddling
           ["user_1"; "user_1"; "user_1"] "user_1" 0 19).
  - lia.
  - lia.
  - by apply exactb_exact.
  - by apply scripted_exact.
  - by apply scripted_non_decreasing.
  - lia.
Defined.

(** The bound of X5 is reached: capacity 1, interval 20, the bucket is
    created at [-1], and the key is admitted at [0] and at [19]. *)
Remark rate_bound_is_reached :
  admits "user_1" 0 19
    (trace ["user_1"; "user_1"; "user_1"] (boot (init 1 20) straddling))
  = 1 + (19 - 0) / 20 + 1.
Proof. reflexivity. Qed.



Lemma final_frame (key : string) (users : list string) :
  forall w : World t,
    key ∉ users ->
    buckets (self (final users w)) !! key = buckets (self w) !! key.
Proof.
  induction users as [|u rest IH]; intros w Hnot; cbn [final]; [done|].
  apply not_elem_of_cons in Hnot as [Hne Hnot].
  rewrite IH by done. by apply after_lookup_ne.
Qed.

Lemma final_config (users : list string) :
  forall w : World t,
    capacity (self (final users w)) = capacity (self w)
    /\ refill_interval (self (final users w)) = refill_interval (self w).
Proof.
  induction users as [|u rest IH]; intros w; cbn [final]; [done|].
  destruct (IH (after w u)) as [-> ->]. done.
Qed.



(** X7. Key independence. A run in which [key] does not call leaves
    the bucket of [key] exactly as it was (absent if it was absent), and
    no run changes [capacity] or [refill_interval]. *)
Theorem token_bucket_other_keys_untouched (users : list string) (w : World t)
    (key : string) :
  refill_interval (self w) <> 0 -> key ∉ users ->
  exists (log : list Call) (w' : World t),
    calls users w = (inr log, w')
    /\ buckets (self w') !! key = buckets (self w) !! key
    /\ capacity (self w') = capacity (self w)
    /\ refill_interval (self w') = refill_interval (self w).
Proof.
  intros HR Hnot. exists (trace users w), (final users w).
  split; [by apply TokenBucket_calls_eq|].
  split; [by apply final_frame|apply final_config].
Qed.

Lemma token_bucket_other_keys_untouched_witness :
  exists (log : list Call) (w' : World t),
    calls ["user_2"; "user_3"; "user_2"] drained_at_30 = (inr log, w')
    /\ buckets (self w') !! "user_1" = buckets (self drained_at_30) !! "user_1"
    /\ capacity (self w') = capacity (self drained_at_30)
    /\ refill_interval (self w') = refill_interval (self drained_at_30).
Proof.
  apply (token_bucket_other_keys_untouched ["user_2"; "user_3"; "user_2"]
           drained_at_30 "user_1").
  - discriminate.
  - intros Hin. repeat (apply elem_of_cons in Hin as [Heq|Hin]; [discriminate|]).
    by apply elem_of_nil in Hin.
Defined.

(** X8. The decision for a key depends on nothing but the
    configuration, the clock and that key's own bucket: two limiters
    that agree on these return the same result for a call of the key
    and leave the same bucket for it, whatever other keys they hold. *)
Theorem token_bucket_decision_is_local (w1 w2 : World t) (u : string) :
  capacity (self w1) = capacity (self w2) ->
  refill_interval (self w1) = refill_interval (self w2) ->
  clock w1 = clock w2 ->
  buckets (self w1) !! u = buckets (self w2) !! u ->
  fst (is_allowed u w1) = fst (is_allowed u w2)
  /\ buckets (self (snd (is_allowed u w1))) !! u
     = buckets (self (snd (is_allowed u w2))) !! u
  /\ clock (snd (is_allowed u w1)) = clock (snd (is_allowed u w2)).
Proof.
  intros HC HR Hck Hb.
  assert (entry w1 u = entry w2 u) as He by (unfold entry; by rewrite Hb, HC, Hck).
  assert (clock_after w1 u = clock_after w2 u) as Hca
    by (unfold clock_after; by rewrite Hb, Hck).
  destruct (decide (refill_interval (self w1) = 0)) as [Hz|Hnz].
  - rewrite !TokenBucket_is_allowed_zero by congruence. cbn [fst snd self buckets clock].
    rewrite !lookup_insert_eq, He, Hca. done.
  - rewrite !TokenBucket_is_allowed_eq by congruence. cbn [fst snd].
    unfold decision. rewrite !after_lookup_eq, He, Hca, HC, HR.
    split; [done|]. split; [done|]. unfold after. cbn [clock]. done.
Qed.

Lemma token_bucket_decision_is_local_witness :
  fst (is_allowed "user_1" drained_at_30)
  = fst (is_allowed "user_1" drained_at_30_crowded)
  /\ buckets (self (snd (is_allowed "user_1" drained_at_30))) !! "user_1"
     = buckets (self (snd (is_allowed "user_1" drained_at_30_crowded))) !! "user_1"
  /\ clock (snd (is_allowed "user_1" drained_at_30))
     = clock (snd (is_allowed "user_1" drained_at_30_crowded)).
Proof.
  apply (token_bucket_decision_is_local drained_at_30 drained_at_30_crowded
           "user_1"); reflexivity.
Defined.

End TokenBucketBehaviour.

(** * The token bucket after an idle period, and with a negative interval *)

Section TokenBucketRecovery.

Import TokenBucketRateLimiter TokenBucketStep TokenBucketClaims.

Variable u : string.

(** What the bucket of [u] will hold once its next call has refilled
    it, if that call came at the instant [now]. *)
Lemma refill_at_least (C R : Z) (b : Bucket) (now : Z) :
  0 < R -> last_refill b <= now -> tokens b <= C ->
  Z.min C (tokens b + (now - last_refill b) / R) <= tokens (refill C R b now).
Proof.
  intros HR Hlr Hle. unfold refill.
  assert (0 <= (now - last_refill b) / R) by (apply Z.div_pos; lia).
  destruct (0 <? _) eqn:E; simpl; [lia|].
  apply Z.ltb_ge in E. lia.
Qed.

Lemma trace_recovered (users : list string) :
  forall (w : World t) (b : Bucket),
    0 < refill_interval (self w) ->
    non_decreasing (clock w) ->
    buckets (self w) !! u = Some b ->
    tokens b <= capacity (self w) ->
    last_refill b <= peek (clock w) ->
    occurrences u users
    <= Z.min (capacity (self w))
             (tokens b + (peek (clock w) - last_refill b) / refill_interval (self w)) ->
    decided u true (trace users w).
Proof.
  induction users as [|v rest IH]; intros w b HR Hmono Hb Hcap Hlr Hocc;
    [constructor|].
  cbn [trace].
  destruct (call_time_bounds w v Hmono) as [H1 H2].
  pose proof (after_non_decreasing w v Hmono) as Hmono'.
  set (C := capacity (self w)) in *. set (R := refill_interval (self w)) in *.
  destruct (decide (v = u)) as [->|Hne].
  - rewrite occurrences_cons_eq in Hocc.
    pose proof (occurrences_nonneg u rest) as Hnn.
    assert (entry w u = b) as He by (unfold entry; by rewrite Hb).
    assert (last_reading (clock_after w u) = peek (clock w)) as Hnow.
    { unfold clock_after. by rewrite Hb. }
    set (now := peek (clock w)) in *.
    pose proof (refill_at_least C R b now HR Hlr Hcap) as Hfull.
    pose proof (refill_within_capacity C R b now Hcap) as Hin.
    assert (step C R b now
            = ({| tokens := tokens (refill C R b now) - 1;
                  last_refill := last_refill (refill C R b now) |}, true))
      as Hstep.
    { unfold step, consume. replace (0 <? _) with true; [done|].
      symmetry. apply Z.ltb_lt. lia. }
    constructor.
    + intros _. simpl. unfold decision. rewrite He, Hnow. fold C R.
      by rewrite Hstep.
    + apply trace_budget.
      * rewrite entry_after_eq, He, Hnow. fold C R. rewrite Hstep.
        change (capacity (self (after w u))) with C. simpl. lia.
      * rewrite entry_after_eq, He, Hnow. fold C R. rewrite Hstep. simpl. lia.
  - rewrite occurrences_cons_ne in Hocc by done. constructor.
    + intros Heq. simpl in Heq. done.
    + apply (IH (after w v) b); try done.
      * by rewrite after_lookup_ne.
      * lia.
      * change (capacity (self (after w v))) with C.
        change (refill_interval (self (after w v))) with R.
        pose proof (Z.div_le_mono (peek (clock w) - last_refill b)
                      (peek (clock (after w v)) - last_refill b) R HR ltac:(lia)).
        lia.
Qed.

(** X20. Recovery. When at least [capacity * refill_interval] has
    passed since the [last_refill] of a bucket with a token count in
    range (refill interval positive, clock never decreasing; the
    interval, [last_refill] and every reading integers of the exact
    range, so that the source rounds neither the elapsed time nor its
    floor quotient), the key has its whole burst back: its next
    [capacity] calls are all admitted, however they are interleaved
    with other keys. *)
Theorem token_bucket_recovers_after_idle (users : list string) (w : World t)
    (b : Bucket) :
  0 < refill_interval (self w) ->
  exact (refill_interval (self w)) ->
  exact (last_refill b) ->
  exact_clock (clock w) ->
  non_decreasing (clock w) ->
  buckets (self w) !! u = Some b ->
  0 <= tokens b <= capacity (self w) ->
  last_refill b + capacity (self w) * refill_interval (self w) <= peek (clock w) ->
  occurrences u users <= capacity (self w) ->
  exists (log : list Call) (w' : World t),
    calls users w = (inr log, w')
    /\ map call_user log = users
    /\ decided u true log.
Proof.
  intros HR _ _ _ Hmono Hb Hrange Hidle Hocc.
  exists (trace users w), (final users w).
  split; [apply TokenBucket_calls_eq; lia|]. split; [apply trace_users|].
  apply (trace_recovered users w b); try done; try lia.
  - pose proof (occurrences_nonneg u users). nia.
  - assert (capacity (self w)
            <= (peek (clock w) - last_refill b) / refill_interval (self w)).
    { apply Z.div_le_lower_bound; lia. }
    lia.
Qed.

End TokenBucketRecovery.

Lemma token_bucket_recovers_after_idle_witness :
  exists (log : list Call) (w' : World TokenBucketRateLimiter.t),
    TokenBucketRateLimiter.calls ["user_1"; "user_2"; "user_1"; "user_1"]
      TokenBucketClaims.idle_for_60 = (inr log, w')
    /\ map call_user log = ["user_1"; "user_2"; "user_1"; "user_1"]
    /\ decided "user_1" true log.
Proof.
  apply (token_bucket_recovers_after_idle "user_1"
           ["user_1"; "user_2"; "user_1"; "user_1"] TokenBucketClaims.idle_for_60
           {| TokenBucketRateLimiter.tokens := 0;
              TokenBucketRateLimiter.last_refill := 0 |}).
  - simpl. lia.
  - by apply exactb_exact.
  - by apply exactb_exact.
  - by apply scripted_exact.
  - by apply scripted_non_decreasing.
  - reflexivity.
  - simpl. lia.
  - simpl. unfold peek. simpl. lia.
  - vm_compute. discriminate.
Defined.

Section TokenBucketNegativeInterval.

Import TokenBucketRateLimiter TokenBucketStep TokenBucketClaims.

Variable key : string.
Variables lo hi : Z.

Lemma refill_negative_interval (C R : Z) (b : Bucket) (now : Z) :
  R < 0 -> last_refill b <= now -> refill C R b now = b.
Proof.
  intros HR Hlr. unfold refill.
  replace (0 <? _) with false; [done|]. symmetry. apply Z.ltb_ge.
  pose proof (Z.div_mod (now - last_refill b) R ltac:(lia)).
  pose proof (Z.mod_neg_bound (now - last_refill b) R HR). nia.
Qed.

Lemma trace_never_refilled (users : list string) :
  forall (w : World t),
    refill_interval (self w) < 0 ->
    non_decreasing (clock w) ->
    (forall b, buckets (self w) !! key = Some b -> last_refill b <= peek (clock w)) ->
    admits key lo hi (trace users w) <= Z.max 0 (tokens (entry w key)).
Proof.
  induction users as [|v rest IH]; intros w HR Hmono Hlr.
  { unfold admits. simpl. lia. }
  cbn [trace]. rewrite admits_cons.
  destruct (call_time_bounds w v Hmono) as [H1 H2].
  pose proof (after_non_decreasing w v Hmono) as Hmono'.
  destruct (decide (v = key)) as [->|Hne].
  - set (C := capacity (self w)) in *. set (R := refill_interval (self w)) in *.
    set (now := last_reading (clock_after w key)) in *.
    assert (last_refill (entry w key) <= now) as Hle.
    { unfold entry. destruct (buckets (self w) !! key) as [b|] eqn:Hb; simpl.
      - specialize (Hlr b eq_refl). lia.
      - lia. }
    pose proof (refill_negative_interval C R (entry w key) now HR Hle) as Hsame.
    specialize (IH (after w key) HR Hmono').
    rewrite entry_after_eq in IH. fold C R now in IH.
    pose proof (admitted_in_le key lo hi (logged w key)) as Hadm.
    simpl in Hadm. rewrite bool_decide_eq_true_2 in Hadm by done. simpl in Hadm.
    unfold decision in Hadm. fold C R now in Hadm.
    unfold step in *. rewrite Hsame in *.
    pose proof (consume_charge (entry w key)) as Hcharge.
    assert (admits key lo hi (trace rest (after w key))
            <= Z.max 0 (tokens (fst (consume (entry w key))))); [|lia].
    apply IH. intros b Hb. rewrite after_lookup_eq in Hb. fold C R now in Hb.
    unfold step in Hb. rewrite Hsame in Hb. injection Hb as <-.
    rewrite consume_last_refill. lia.
  - rewrite admitted_in_other by done. simpl.
    rewrite <- (entry_tokens_ne w v key) by done.
    apply IH; try done.
    intros b Hb. rewrite after_lookup_ne in Hb by done.
    specialize (Hlr b Hb). lia.
Qed.

(** X21. A negative refill interval, which construction does not
    reject, gives a bucket that is never refilled: on a fresh limiter
    under a clock that never decreases, a key is admitted at most
    [capacity] times in total, over any span of time. *)
Theorem token_bucket_negative_interval_never_refills (C R : Z) (ck : Clock)
    (users : list string) :
  R < 0 -> 0 <= C -> non_decreasing ck ->
  exists (log : list Call) (w' : World t),
    calls users (boot (init C R) ck) = (inr log, w')
    /\ admits key lo hi log <= C.
Proof.
  intros HR HC Hmono.
  exists (trace users (boot (init C R) ck)), (final users (boot (init C R) ck)).
  split; [apply TokenBucket_calls_eq; simpl; lia|].
  pose proof (trace_never_refilled users (boot (init C R) ck) HR Hmono) as Hb.
  unfold entry in Hb. simpl in Hb. rewrite lookup_empty in Hb. simpl in Hb.
  specialize (Hb ltac:(done)). lia.
Qed.

End TokenBucketNegativeInterval.

Lemma token_bucket_negative_interval_never_refills_witness :
  exists (log : list Call) (w' : World TokenBucketRateLimiter.t),
    TokenBucketRateLimiter.calls
      ["user_1"; "user_1"; "user_1"; "user_1"; "user_1"; "user_1"]
      (boot (TokenBucketRateLimiter.init 3 (-20)) TokenBucketClaims.burst_then_trickle)
    = (inr log, w')
    /\ admits "user_1" 0 60 log <= 3.
Proof.
  apply (token_bucket_negative_interval_never_refills "user_1" 0 60 3 (-20)
           TokenBucketClaims.burst_then_trickle
           ["user_1"; "user_1"; "user_1"; "user_1"; "user_1"; "user_1"]).
  - lia.
  - lia.
  - by apply scripted_non_decreasing.
Defined.

(** * Further properties of the sliding window *)

Section SlidingWindowBehaviour.

Import SlidingWindowRateLimiter SlidingWindowStep SlidingWindowClaims.

Lemma sw_trace_users (users : list string) :
  forall w : World t, map call_user (trace users w) = users.
Proof.
  induction users as [|v rest IH]; intros w; [done|].
  cbn [trace map]. by rewrite IH.
Qed.

Lemma sw_entry_after_eq (w : World t) (u : string) :
  entry (after w u) u
  = fst (step (max_requests (self w)) (window (self w)) (entry w u)
              (peek (clock w))).
Proof. unfold entry at 1. by rewrite sw_after_lookup_eq. Qed.

Lemma sw_entry_after_ne (w : World t) (u k : string) :
  u <> k -> entry (after w u) k = entry w k.
Proof. intros Hne. unfold entry. by rewrite sw_after_lookup_ne. Qed.

(** While the stamps stored for [u] and the calls [u] has left together
    stay within [max_requests], every call of [u] is admitted. *)
Lemma sw_trace_budget (u : string) (users : list string) :
  forall w : World t,
    Z.of_nat (length (entry w u)) + occurrences u users <= max_requests (self w) ->
    decided u true (trace users w).
Proof.
  induction users as [|v rest IH]; intros w Hroom; [constructor|].
  cbn [trace]. destruct (decide (v = u)) as [->|Hne].
  - rewrite occurrences_cons_eq in Hroom.
    pose proof (occurrences_nonneg u rest) as Hnn.
    set (N := max_requests (self w)) in *. set (W := window (self w)) in *.
    set (now := peek (clock w)).
    pose proof (prune_length W now (entry w u)) as Hshort.
    assert (step N W (entry w u) now
            = ((prune W now (entry w u) ++ [now])%list, true)) as Hstep.
    { unfold step. replace (_ <? N) with true; [done|].
      symmetry. apply Z.ltb_lt. lia. }
    constructor.
    + intros _. simpl. unfold decision. fold N W now. by rewrite Hstep.
    + apply IH. rewrite sw_entry_after_eq. fold N W now. rewrite Hstep.
      change (max_requests (self (after w u))) with N.
      cbn [fst]. rewrite length_app. simpl. lia.
  - rewrite occurrences_cons_ne in Hroom by done. constructor.
    + intros Heq. simpl in Heq. done.
    + apply IH. by rewrite sw_entry_after_ne.
Qed.

(** X9. On a fresh sliding window limiter, a key that calls at most
    [max_requests] times in a run is admitted every time, however its
    calls are interleaved with those of other keys and whatever the
    clock reads. *)
Theorem sliding_window_first_calls_admitted (N W : Z) (ck : Clock)
    (users : list string) (u : string) :
  occurrences u users <= N ->
  exists (log : list Call) (w' : World t),
    calls users (boot (init N W) ck) = (inr log, w')
    /\ map call_user log = users
    /\ decided u true log.
Proof.
  intros Hocc.
  exists (trace users (boot (init N W) ck)), (final users (boot (init N W) ck)).
  split; [apply SlidingWindow_calls_eq|]. split; [apply sw_trace_users|].
  apply sw_trace_budget. unfold entry. simpl. rewrite ?lookup_empty. simpl. lia.
Qed.

Lemma sliding_window_first_calls_admitted_witness :
  exists (log : list Call) (w' : World t),
    calls ["user_1"; "user_2"; "user_1"] (boot (init 2 60) one_window_apart)
    = (inr log, w')
    /\ map call_user log = ["user_1"; "user_2"; "user_1"]
    /\ decided "user_1" true log.
Proof.
  apply (sliding_window_first_calls_admitted 2 60 one_window_apart
           ["user_1"; "user_2"; "user_1"] "user_1").
  vm_compute. discriminate.
Defined.

Lemma sw_trace_closed (users : list string) :
  forall w : World t, max_requests (self w) <= 0 -> all_decided false (trace users w).
Proof.
  induction users as [|v rest IH]; intros w HN; [constructor|].
  cbn [trace]. constructor; [|by apply IH].
  simpl. unfold decision, step.
  replace (_ <? max_requests (self w)) with false; [done|].
  symmetry. apply Z.ltb_ge. lia.
Qed.

(** X10. A sliding window limiter with [max_requests <= 0] denies every
    call, for every key, every stored state and every clock. *)
Theorem sliding_window_closed (users : list string) (w : World t) :
  max_requests (self w) <= 0 ->
  exists (log : list Call) (w' : World t),
    calls users w = (inr log, w')
    /\ map call_user log = users
    /\ all_decided false log.
Proof.
  intros HN. exists (trace users w), (final users w).
  split; [apply SlidingWindow_calls_eq|]. split; [apply sw_trace_users|].
  by apply sw_trace_closed.
Qed.

Lemma sliding_window_closed_witness :
  exists (log : list Call) (w' : World t),
    calls ["user_1"; "user_2"; "user_1"] (boot (init 0 60) one_window_apart)
    = (inr log, w')
    /\ map call_user log = ["user_1"; "user_2"; "user_1"]
    /\ all_decided false log.
Proof.
  apply (sliding_window_closed ["user_1"; "user_2"; "user_1"]
           (boot (init 0 60) one_window_apart)).
  simpl. lia.
Defined.

Lemma prune_none (W now : Z) (l : list Z) :
  W <= 0 -> Forall (fun ts => ts <= now) l -> prune W now l = [].
Proof.
  intros HW Hold. unfold prune. induction Hold as [|ts l Hts _ IH]; [done|].
  simpl. replace (now - ts <? W) with false; [done|].
  symmetry. apply Z.ltb_ge. lia.
Qed.

Lemma sw_trace_open (users : list string) :
  forall w : World t,
    window (self w) <= 0 -> 1 <= max_requests (self w) ->
    non_decreasing (clock w) ->
    (forall k, Forall (fun ts => ts <= peek (clock w)) (entry w k)) ->
    all_decided true (trace users w).
Proof.
  induction users as [|v rest IH]; intros w HW HN Hmono Hold; [constructor|].
  cbn [trace].
  assert (step (max_requests (self w)) (window (self w)) (entry w v)
               (peek (clock w)) = ([peek (clock w)], true)) as Hstep.
  { unfold step. rewrite (prune_none _ _ _ HW (Hold v)). simpl.
    replace (Z.of_nat 0 <? max_requests (self w)) with true; [done|].
    symmetry. apply Z.ltb_lt. lia. }
  destruct (sw_after_peek w v Hmono) as [Hle Hmono'].
  constructor.
  - simpl. unfold decision. by rewrite Hstep.
  - apply IH; try done. intros k. destruct (decide (v = k)) as [<-|Hne].
    + rewrite sw_entry_after_eq, Hstep. cbn [fst]. constructor; [lia|constructor].
    + rewrite sw_entry_after_ne by done.
      eapply Forall_impl; [apply (Hold k)|]. cbn beta. intros ts Hts. lia.
Qed.

(** X11. A window that is zero or negative switches the limiter off:
    on a fresh limiter with [window <= 0] and [max_requests >= 1], under
    a clock that never decreases, every call is admitted. *)
Theorem sliding_window_nonpositive_window (N W : Z) (ck : Clock)
    (users : list string) :
  W <= 0 -> 1 <= N -> non_decreasing ck ->
  exists (log : list Call) (w' : World t),
    calls users (boot (init N W) ck) = (inr log, w')
    /\ map call_user log = users
    /\ all_decided true log.
Proof.
  intros HW HN Hmono.
  exists (trace users (boot (init N W) ck)), (final users (boot (init N W) ck)).
  split; [apply SlidingWindow_calls_eq|]. split; [apply sw_trace_users|].
  by apply sw_trace_open.
Qed.

Lemma sliding_window_nonpositive_window_witness :
  exists (log : list Call) (w' : World t),
    calls ["user_1"; "user_1"; "user_1"] (boot (init 1 0) five_then_two)
    = (inr log, w')
    /\ map call_user log = ["user_1"; "user_1"; "user_1"]
    /\ all_decided true log.
Proof.
  apply (sliding_window_nonpositive_window 1 0 five_then_two
           ["user_1"; "user_1"; "user_1"]); try lia.
  by apply scripted_non_decreasing.
Defined.

Lemma prune_sorted (W now : Z) (l : list Z) :
  StronglySorted Z.le l -> StronglySorted Z.le (prune W now l).
Proof.
  unfold prune. induction 1 as [|ts l Hs IH Hall]; simpl; [constructor|].
  destruct (now - ts <? W); [|done].
  constructor; [done|].
  apply List.Forall_forall. intros x Hx. apply List.filter_In in Hx as [Hx _].
  rewrite List.Forall_forall in Hall. by apply Hall.
Qed.

Lemma prune_bounded (W now bound : Z) (l : list Z) :
  Forall (fun ts => ts <= bound) l -> Forall (fun ts => ts <= bound) (prune W now l).
Proof.
  intros Hall. apply List.Forall_forall. intros x Hx.
  apply List.filter_In in Hx as [Hx _].
  rewrite List.Forall_forall in Hall. by apply Hall.
Qed.

Lemma snoc_sorted (l : list Z) (x : Z) :
  StronglySorted Z.le l -> Forall (fun ts => ts <= x) l ->
  StronglySorted Z.le (l ++ [x]).
Proof.
  induction 1 as [|ts l Hs IH Hall]; intros Hle; simpl.
  - repeat constructor.
  - apply Forall_cons in Hle as [Hts Hle]. constructor; [by apply IH|].
    apply Forall_app. split; [done|]. by constructor.
Qed.

Lemma step_stamps_ok (N W : Z) (l : list Z) (now bound : Z) :
  0 <= N -> bound <= now -> stamps_ok N bound l ->
  stamps_ok N now (fst (step N W l now)).
Proof.
  intros HN Hle (Hlen & Hsorted & Hold).
  assert (Forall (fun ts => ts <= now) (prune W now l)) as Hkept.
  { apply prune_bounded. eapply Forall_impl; [done|]. simpl. intros; lia. }
  pose proof (prune_length W now l) as Hshort.
  pose proof (prune_sorted W now l Hsorted) as Hks.
  unfold step, stamps_ok. destruct (_ <? N) eqn:Hroom; cbn [fst].
  - apply Z.ltb_lt in Hroom. rewrite length_app. simpl.
    split; [lia|]. split; [by apply snoc_sorted|].
    apply Forall_app. split; [done|]. constructor; [lia|constructor].
  - split; [lia|]. by split.
Qed.

Lemma after_requests_ok (w : World t) (u : string) :
  0 <= max_requests (self w) -> non_decreasing (clock w) ->
  requests_ok w -> requests_ok (after w u).
Proof.
  intros HN Hmono Hok k l Hl.
  change (max_requests (self (after w u))) with (max_requests (self w)).
  change (last_reading (clock (after w u))) with (peek (clock w)).
  assert (last_reading (clock w) <= peek (clock w)) as Hle.
  { unfold last_reading, peek. apply Hmono. lia. }
  destruct (decide (u = k)) as [<-|Hne].
  - rewrite sw_after_lookup_eq in Hl. injection Hl as <-.
    apply (step_stamps_ok _ _ _ _ (last_reading (clock w))); [done|done|].
    unfold entry. destruct (requests (self w) !! u) as [l|] eqn:Hu; simpl.
    + by apply (Hok u).
    + repeat split; [simpl; lia|constructor|constructor].
  - rewrite sw_after_lookup_ne in Hl by done.
    destruct (Hok k l Hl) as (Hlen & Hsorted & Hold).
    repeat split; [done|done|].
    eapply Forall_impl; [done|]. simpl. intros; lia.
Qed.

Lemma sw_final_dom (users : list string) :
  forall w : World t,
    dom (requests (self (final users w))) = dom (requests (self w)) ∪ callers users.
Proof.
  unfold callers.
  induction users as [|u rest IH]; intros w; cbn [final list_to_set].
  - by rewrite (right_id_L ∅ (∪)).
  - rewrite IH. unfold after. cbn [self requests].
    by rewrite dom_insert_L, (comm_L (∪) {[u]}), (assoc_L (∪)).
Qed.

Lemma sw_final_frame (key : string) (users : list string) :
  forall w : World t,
    key ∉ users ->
    requests (self (final users w)) !! key = requests (self w) !! key.
Proof.
  induction users as [|u rest IH]; intros w Hnot; cbn [final]; [done|].
  apply not_elem_of_cons in Hnot as [Hne Hnot].
  rewrite IH by done. by apply sw_after_lookup_ne.
Qed.

Lemma sw_final_config (users : list string) :
  forall w : World t,
    max_requests (self (final users w)) = max_requests (self w)
    /\ window (self (final users w)) = window (self w).
Proof.
  induction users as [|u rest IH]; intros w; cbn [final]; [done|].
  destruct (IH (after w u)) as [-> ->]. done.
Qed.

Lemma sw_final_requests_ok (users : list string) :
  forall w : World t,
    0 <= max_requests (self w) -> non_decreasing (clock w) ->
    requests_ok w -> requests_ok (final users w).
Proof.
  induction users as [|u rest IH]; intros w HN Hmono Hok; cbn [final]; [done|].
  apply IH; [done|done|by apply after_requests_ok].
Qed.

(** X12. Stored stamps stay well formed. With [max_requests >= 0] and
    a clock that never decreases, every run from a well-formed state (a
    fresh limiter is one) returns and leaves, for every key, a list of
    at most [max_requests] stamps, in non-decreasing order, none later
    than the last reading of the clock. *)
Theorem sliding_window_stamps_well_formed (users : list string) (w : World t) :
  0 <= max_requests (self w) -> non_decreasing (clock w) -> requests_ok w ->
  exists (log : list Call) (w' : World t),
    calls users w = (inr log, w') /\ requests_ok w'.
Proof.
  intros HN Hmono Hok. exists (trace users w), (final users w).
  split; [apply SlidingWindow_calls_eq|by apply sw_final_requests_ok].
Qed.

Lemma sliding_window_stamps_well_formed_witness :
  exists (log : list Call) (w' : World t),
    calls ["user_1"; "user_2"; "user_1"] (boot (init 5 60) five_then_two)
    = (inr log, w')
    /\ requests_ok w'.
Proof.
  apply (sliding_window_stamps_well_formed ["user_1"; "user_2"; "user_1"]
           (boot (init 5 60) five_then_two)).
  - simpl. lia.
  - by apply scripted_non_decreasing.
  - intros k l Hl. simpl in Hl. by rewrite lookup_empty in Hl.
Defined.

(** X13. [is_allowed] of the sliding window never raises: every run
    returns one decision per call, in order; and afterwards the keys
    with a stored list are those that had one before together with
    every key that called (nothing is ever evicted). *)
Theorem sliding_window_never_raises (users : list string) (w : World t) :
  exists (log : list Call) (w' : World t),
    calls users w = (inr log, w')
    /\ map call_user log = users
    /\ dom (requests (self w')) = dom (requests (self w)) ∪ callers users.
Proof.
  exists (trace users w), (final users w).
  split; [apply SlidingWindow_calls_eq|].
  split; [apply sw_trace_users|apply sw_final_dom].
Qed.

(** X14. Key independence. A run in which [key] does not call leaves
    the stamps of [key] exactly as they were, and no run changes
    [max_requests] or [window]. *)
Theorem sliding_window_other_keys_untouched (users : list string) (w : World t)
    (key : string) :
  key ∉ users ->
  exists (log : list Call) (w' : World t),
    calls users w = (inr log, w')
    /\ requests (self w') !! key = requests (self w) !! key
    /\ max_requests (self w') = max_requests (self w)
    /\ window (self w') = window (self w).
Proof.
  intros Hnot. exists (trace users w), (final users w).
  split; [apply SlidingWindow_calls_eq|].
  split; [by apply sw_final_frame|apply sw_final_config].
Qed.

Lemma sliding_window_other_keys_untouched_witness :
  exists (log : list Call) (w' : World t),
    calls ["user_2"; "user_3"] (boot (init 5 60) five_then_two) = (inr log, w')
    /\ requests (self w') !! "user_1" = requests (init 5 60) !! "user_1"
    /\ max_requests (self w') = 5
    /\ window (self w') = 60.
Proof.
  apply (sliding_window_other_keys_untouched ["user_2"; "user_3"]
           (boot (init 5 60) five_then_two) "user_1").
  intros Hin. repeat (apply elem_of_cons in Hin as [Heq|Hin]; [discriminate|]).
  by apply elem_of_nil in Hin.
Defined.

Lemma admits_app (key : string) (lo hi : Z) (l1 l2 : list Call) :
  admits key lo hi (l1 ++ l2) = admits key lo hi l1 + admits key lo hi l2.
Proof. unfold admits. rewrite List.filter_app, length_app. lia. Qed.

(** With no stamp from the future, the stamps that survive the pruning
    are those of the window [(now - W, now]]. *)
Lemma prune_length_stamps (W now : Z) (l : list Z) :
  Forall (fun ts => ts <= now) l ->
  Z.of_nat (length (prune W now l)) = stamps_in (now - W + 1) now l.
Proof.
  intros Hold. unfold prune, stamps_in. do 2 f_equal.
  induction Hold as [|ts l Hts _ IH]; [done|]. simpl. rewrite IH.
  replace ((now - W + 1 <=? ts) && (ts <=? now)) with (now - ts <? W); [done|].
  destruct (now - ts <? W) eqn:E.
  - apply Z.ltb_lt in E. symmetry. apply andb_true_iff. split; apply Z.leb_le; lia.
  - apply Z.ltb_ge in E. symmetry. apply andb_false_iff. left. apply Z.leb_gt. lia.
Qed.

(** The decision of every call is read off the history: with [past]
    the calls logged so far, the stored stamps of each key, seen through
    any window that ends at or after the next reading, are the admits
    of [past]. *)
Lemma sw_trace_exact (users : list string) :
  forall (w : World t) (past : list Call),
    non_decreasing (clock w) ->
    (forall k, Forall (fun ts => ts <= peek (clock w)) (entry w k)) ->
    (forall k t', peek (clock w) <= t' ->
       stamps_in (t' - window (self w) + 1) t' (entry w k)
       = admits k (t' - window (self w) + 1) t' past) ->
    forall (pre : list Call) (c : Call) (post : list Call),
      trace users w = (pre ++ c :: post)%list ->
      call_admitted c
      = (admits (call_user c) (call_time c - window (self w) + 1) (call_time c)
                (past ++ pre)
         <? max_requests (self w)).
Proof.
  induction users as [|u rest IH]; intros w past Hmono Hold Hhist pre c post Htrace.
  { by destruct pre. }
  cbn [trace] in Htrace.
  set (N := max_requests (self w)) in *. set (W := window (self w)) in *.
  set (now := peek (clock w)) in *.
  destruct (sw_after_peek w u Hmono) as [Hle Hmono'].
  destruct pre as [|c0 pre]; simpl in Htrace; injection Htrace as Hc Hrest.
  - subst c. rewrite app_nil_r. cbn [logged call_admitted call_user call_time].
    fold now. unfold decision, step. fold N W now.
    rewrite prune_length_stamps by apply Hold.
    rewrite (Hhist u now) by lia.
    by destruct (_ <? N).
  - subst c0.
    replace (past ++ logged w u :: pre)%list
      with ((past ++ [logged w u]) ++ pre)%list
      by (by rewrite <- app_assoc).
    apply (IH (after w u) (past ++ [logged w u])%list Hmono') with (post := post);
      [| |done].
    + intros k. destruct (decide (u = k)) as [<-|Hne].
      * rewrite sw_entry_after_eq. fold N W now. unfold step.
        pose proof (prune_bounded W now now (entry w u) (Hold u)) as Hkept.
        assert (Forall (fun ts => ts <= peek (clock (after w u)))
                       (prune W now (entry w u))) as Hkept'.
        { eapply Forall_impl; [apply Hkept|]. cbn beta. intros; lia. }
        destruct (_ <? N); cbn [fst]; [|done].
        apply Forall_app. split; [done|]. constructor; [lia|constructor].
      * rewrite sw_entry_after_ne by done.
        eapply Forall_impl; [apply (Hold k)|]. cbn beta. intros; lia.
    + intros k t' Ht'.
      change (window (self (after w u))) with W.
      rewrite admits_app. unfold admits at 2. cbn [List.filter length].
      destruct (decide (u = k)) as [<-|Hne].
      * rewrite sw_entry_after_eq. fold N W now.
        pose proof (prune_stamps_in (t' - W + 1) t' W now (entry w u)
                      ltac:(lia) ltac:(lia)) as Hprune.
        specialize (Hhist u t' ltac:(lia)).
        unfold admitted_in, logged, decision, step. fold N W now.
        cbn [call_user call_time call_admitted].
        rewrite bool_decide_eq_true_2 by done.
        destruct (_ <? N); cbn [fst snd andb].
        -- rewrite stamps_in_snoc, Hprune, Hhist. unfold charge.
           destruct ((t' - W + 1 <=? now) && (now <=? t')); simpl; lia.
        -- rewrite Hprune, Hhist. simpl. lia.
      * rewrite sw_entry_after_ne by done.
        rewrite (Hhist k t') by lia.
        rewrite admitted_in_other by done. simpl. lia.
Qed.

(** X15. Exact admission. On a fresh sliding window limiter, under a
    clock that never decreases and whose readings are integers of the
    exact range (so that the source's [now - ts] is not rounded), a call
    is admitted exactly when fewer than [max_requests] earlier calls of
    the same key were admitted at instants inside the window
    [(now - window, now]] of the call. *)
Theorem sliding_window_admits_exactly_below_limit (N W : Z) (ck : Clock)
    (users : list string) (log : list Call) (w' : World t)
    (pre : list Call) (c : Call) (post : list Call) :
  exact_clock ck ->
  non_decreasing ck ->
  calls users (boot (init N W) ck) = (inr log, w') ->
  log = (pre ++ c :: post)%list ->
  call_admitted c
  = (admits (call_user c) (call_time c - W + 1) (call_time c) pre <? N).
Proof.
  intros _ Hmono Hrun Hlog. rewrite SlidingWindow_calls_eq in Hrun.
  injection Hrun as Htrace _. subst log.
  apply (sw_trace_exact users (boot (init N W) ck) [] Hmono) with (post := post);
    [| |done].
  - intros k. unfold entry. simpl. rewrite lookup_empty. constructor.
  - intros k t' _. unfold entry. simpl. rewrite lookup_empty. done.
Qed.

Lemma sliding_window_admits_exactly_below_limit_witness :
  call_admitted (entry_of "user_1" 30 false)
  = (admits "user_1" (30 - 60 + 1) 30
       [entry_of "user_1" 0 true; entry_of "user_1" 0 true;
        entry_of "user_1" 0 true; entry_of "user_1" 0 true;
        entry_of "user_1" 0 true] <? 5).
Proof.
  apply (sliding_window_admits_exactly_below_limit 5 60 five_then_two
           ["user_1"; "user_1"; "user_1"; "user_1"; "user_1"; "user_1"; "user_1"]
           (trace ["user_1"; "user_1"; "user_1"; "user_1"; "user_1"; "user_1"; "user_1"]
                  (boot (init 5 60) five_then_two))
           (final ["user_1"; "user_1"; "user_1"; "user_1"; "user_1"; "user_1"; "user_1"]
                  (boot (init 5 60) five_then_two))
           [entry_of "user_1" 0 true; entry_of "user_1" 0 true;
            entry_of "user_1" 0 true; entry_of "user_1" 0 true;
            entry_of "user_1" 0 true]
           (entry_of "user_1" 30 false)
           [entry_of "user_1" 61 true]).
  - by apply scripted_exact.
  - by apply scripted_non_decreasing.
  - apply SlidingWindow_calls_eq.
  - reflexivity.
Defined.

End SlidingWindowBehaviour.

(** * Further properties of the factory *)

Section FactoryBehaviour.

Import RateLimiterFactory FactoryClaims.

Lemma construct_inr {L : Type} (mk : Z -> Z -> L) (p1 : string) (d1 : Z)
    (p2 : string) (d2 : Z) (kwargs : gmap string Z) (l : L) :
  construct mk p1 d1 p2 d2 kwargs = inr l <->
  dom kwargs ⊆ ({[ p1; p2 ]} : gset string)
  /\ l = mk (default d1 (kwargs !! p1)) (default d2 (kwargs !! p2)).
Proof.
  unfold construct. destruct (decide (dom kwargs ⊆ _)) as [Hsub|Hnot].
  - split.
    + intros Heq. injection Heq as <-. done.
    + intros [_ ->]. done.
  - split; [discriminate|]. intros [Hsub _]. done.
Qed.

(** X16. [create] returns a limiter exactly when the name is one of the
    two algorithms and every keyword is a parameter of that algorithm's
    constructor; no check on the values takes part. *)
Theorem create_succeeds_iff (limiter_type : string) (kwargs : gmap string Z) :
  (exists l : RateLimiter, create limiter_type kwargs = inr l) <->
  (limiter_type = "token_bucket"
   /\ dom kwargs ⊆ ({[ "capacity"; "refill_interval" ]} : gset string))
  \/ (limiter_type = "sliding_window"
      /\ dom kwargs ⊆ ({[ "max_requests"; "window" ]} : gset string)).
Proof.
  unfold create.
  destruct (decide (limiter_type = "token_bucket")) as [->|Htb].
  - destruct (construct _ _ _ _ _ kwargs) as [e|l] eqn:Hc.
    + split; [intros [l Hl]; discriminate|].
      intros [[_ Hsub]|[Hne _]]; [|discriminate].
      unfold construct in Hc. by rewrite decide_True in Hc.
    + split; [|by eexists]. intros _. left. split; [done|].
      by apply construct_inr in Hc as [Hsub _].
  - destruct (decide (limiter_type = "sliding_window")) as [->|Hsw].
    + destruct (construct _ _ _ _ _ kwargs) as [e|l] eqn:Hc.
      * split; [intros [l Hl]; discriminate|].
        intros [[Hne _]|[_ Hsub]]; [discriminate|].
        unfold construct in Hc. by rewrite decide_True in Hc.
      * split; [|by eexists]. intros _. right. split; [done|].
        by apply construct_inr in Hc as [Hsub _].
    + split; [intros [l Hl]; discriminate|].
      intros [[Heq _]|[Heq _]]; done.
Qed.

(** X17. What [create] returns is a fresh limiter of the algorithm
    that was named, holding the keyword values where they were given and
    the constructor's defaults (3 and 20, or 3 and 60) where they were
    not. *)
Theorem create_returns_named_algorithm (limiter_type : string)
    (kwargs : gmap string Z) (l : RateLimiter) :
  create limiter_type kwargs = inr l ->
  (limiter_type = "token_bucket"
   /\ l = TokenBucket (TokenBucketRateLimiter.init
                         (default 3 (kwargs !! "capacity"))
                         (default 20 (kwargs !! "refill_interval"))))
  \/ (limiter_type = "sliding_window"
      /\ l = SlidingWindow (SlidingWindowRateLimiter.init
                              (default 3 (kwargs !! "max_requests"))
                              (default 60 (kwargs !! "window")))).
Proof.
  unfold create. intros Hc.
  destruct (decide (limiter_type = "token_bucket")) as [->|Htb].
  - left. split; [done|].
    destruct (construct _ _ _ _ _ kwargs) as [e|l0] eqn:Hl; [discriminate|].
    injection Hc as <-. by apply construct_inr in Hl as [_ ->].
  - destruct (decide (limiter_type = "sliding_window")) as [->|Hsw]; [|discriminate].
    right. split; [done|].
    destruct (construct _ _ _ _ _ kwargs) as [e|l0] eqn:Hl; [discriminate|].
    injection Hc as <-. by apply construct_inr in Hl as [_ ->].
Qed.

Lemma create_returns_named_algorithm_witness :
  ("sliding_window" = "token_bucket"
   /\ SlidingWindow (SlidingWindowRateLimiter.init 5 60)
      = TokenBucket (TokenBucketRateLimiter.init
           (default 3 (keywords "max_requests" 5 "window" 60 !! "capacity"))
           (default 20 (keywords "max_requests" 5 "window" 60 !! "refill_interval"))))
  \/ ("sliding_window" = "sliding_window"
      /\ SlidingWindow (SlidingWindowRateLimiter.init 5 60)
         = SlidingWindow (SlidingWindowRateLimiter.init
              (default 3 (keywords "max_requests" 5 "window" 60 !! "max_requests"))
              (default 60 (keywords "max_requests" 5 "window" 60 !! "window")))).
Proof.
  apply (create_returns_named_algorithm "sliding_window"
           (keywords "max_requests" 5 "window" 60)).
  by vm_compute.
Defined.

(** X18. A keyword that is no parameter of the named algorithm's
    constructor makes [create] raise [TypeError]: the keywords of one
    algorithm are not accepted, nor ignored, by the other. *)
Theorem create_rejects_foreign_keyword (limiter_type : string)
    (kwargs : gmap string Z) (k : string) :
  is_Some (kwargs !! k) ->
  (limiter_type = "token_bucket" /\ k <> "capacity" /\ k <> "refill_interval")
  \/ (limiter_type = "sliding_window" /\ k <> "max_requests" /\ k <> "window") ->
  create limiter_type kwargs = inl TypeError.
Proof.
  intros Hk%elem_of_dom Hcase. unfold create, construct.
  destruct Hcase as [(-> & Hk1 & Hk2)|(-> & Hk1 & Hk2)].
  - rewrite decide_True by done. rewrite decide_False; [done|].
    intros Hsub. specialize (Hsub k Hk).
    apply elem_of_union in Hsub as [Heq%elem_of_singleton|Heq%elem_of_singleton];
      done.
  - rewrite decide_False by done. rewrite decide_True by done.
    rewrite decide_False; [done|].
    intros Hsub. specialize (Hsub k Hk).
    apply elem_of_union in Hsub as [Heq%elem_of_singleton|Heq%elem_of_singleton];
      done.
Qed.

Lemma create_rejects_foreign_keyword_witness :
  create "token_bucket" (keywords "max_requests" 5 "window" 60) = inl TypeError.
Proof.
  apply (create_rejects_foreign_keyword "token_bucket"
           (keywords "max_requests" 5 "window" 60) "window").
  - exists 60. reflexivity.
  - left. repeat split; discriminate.
Defined.

End FactoryBehaviour.

(** * The example program *)

Section MainBehaviour.

Import RateLimiterFactory Main.

Lemma turn_sliding_window (user : string) (i : nat)
    (l : SlidingWindowRateLimiter.t) (out : list string) (ck : Clock) :
  SlidingWindowStep.decision (boot l ck) user = true ->
  turn user i (boot {| limiter := SlidingWindow l; stdout := out |} ck)
  = (inr tt,
     boot {| limiter := SlidingWindow (self (SlidingWindowStep.after (boot l ck) user));
             stdout := (out ++ [request_line i user true])%list |}
          (tick ck)).
Proof.
  intros Hok. unfold turn, bind at 1, call_limiter, is_allowed.
  cbn [self clock limiter boot].
  change {| self := l; clock := ck |} with (boot l ck).
  rewrite SlidingWindow_is_allowed_eq, Hok. reflexivity.
Qed.

Lemma for_each_all_admitted (user : string) (indices : list nat) :
  forall (l : SlidingWindowRateLimiter.t) (out : list string) (ck : Clock),
    decided user true
      (SlidingWindowStep.trace (replicate (length indices) user) (boot l ck)) ->
    exists w' : World Program,
      for_each indices (turn user)
        (boot {| limiter := SlidingWindow l; stdout := out |} ck) = (inr tt, w')
      /\ stdout (self w')
         = (out ++ map (fun i => request_line i user true) indices)%list.
Proof.
  induction indices as [|i rest IH]; intros l out ck Hall.
  - eexists. split; [reflexivity|]. simpl. by rewrite app_nil_r.
  - cbn [length replicate SlidingWindowStep.trace] in Hall.
    apply Forall_cons in Hall as [Hhead Hrest].
    specialize (Hhead eq_refl). simpl in Hhead.
    cbn [for_each]. unfold bind at 1. rewrite turn_sliding_window by done.
    destruct (IH (self (SlidingWindowStep.after (boot l ck) user))
                 (out ++ [request_line i user true])%list (tick ck) Hrest)
      as (w' & Hrun & Hout).
    exists w'. split; [done|].
    rewrite Hout, <- app_assoc. done.
Qed.

(** X19. The example program. Whatever the clock reads, the block
    under [__main__] ends without an exception and prints exactly the
    five lines "Request i for user_1 - allowed: True", i from 1 to 5; it
    never prints "Rate limit exceeded.". *)
Theorem main_prints_five_admits (ck : Clock) :
  main ck
  = (inr tt,
     ["Request 1 for user_1 - allowed: True";
      "Request 2 for user_1 - allowed: True";
      "Request 3 for user_1 - allowed: True";
      "Request 4 for user_1 - allowed: True";
      "Request 5 for user_1 - allowed: True"]).
Proof.
  unfold main.
  replace (create "sliding_window" (FactoryClaims.keywords "max_requests" 5 "window" 60))
    with (inr (SlidingWindow (SlidingWindowRateLimiter.init 5 60)) : Exn + RateLimiter)
    by (by vm_compute).
  destruct (for_each_all_admitted "user_1" (seq 0 5)
              (SlidingWindowRateLimiter.init 5 60) [] ck) as (w' & -> & ->).
  - apply sw_trace_budget. by vm_compute.
  - by vm_compute.
Qed.

End MainBehaviour.
